(** * Pipass: the offline installer loop of [local_installer.py]

    A shallow embedding of the three functions of [local_installer.py]:

    - [extract_dependencies_from_whl] (module [Wheel]),
    - [parse_pip_error_for_missing_deps] (module [PipErrors]),
    - [install_packages_locally] (module [Installer]),

    followed by the properties of the design document, each settled on the
    embedding.

    Conventions.  A Python [str] is a Rocq [string]; one [ascii] stands for
    one code point below 256 (text with larger code points is outside the
    model; none of them is a name character, so they behave like any other
    non-name character).  A Python [set] of names is a [gset string].  The
    outside world (network, file system, the pip process) is threaded through
    the functions as an explicit state.  The file system is a map from
    paths in normal form to directories and files, on POSIX conventions;
    permissions, links and what other processes do to the disk meanwhile
    are outside the model.  An exception is one of three kinds, by the
    handler that catches it: [FileNotFoundError], another exception of
    class [Exception], or one outside that class, which is raised by a
    call of a capability (not asynchronously in the middle of other
    code). *)

From Stdlib Require Import ZArith Ascii.
From stdpp Require Import gmap strings list.

Local Open Scope Z_scope.

(** ** Python text primitives *)

Module Text.

(** Code point of a character. *)
Definition code (c : ascii) : N := Ascii.N_of_ascii c.

Definition between (lo hi : N) (c : ascii) : bool :=
  ((lo <=? code c) && (code c <=? hi))%N.

(** The character class [[a-zA-Z0-9._-]] of the three regular
    expressions. *)
Definition is_name_char (c : ascii) : bool :=
  between 97 122 c || between 65 90 c || between 48 57 c
  || (code c =? 46)%N || (code c =? 95)%N || (code c =? 45)%N.

(** [str.isspace] on one code point, which is also the class [\s] of a
    [str] pattern: tab to carriage return, the four separators 28..31,
    space, NEL and the no-break space. *)
Definition is_space (c : ascii) : bool :=
  between 9 13 c || between 28 31 c
  || (code c =? 32)%N || (code c =? 133)%N || (code c =? 160)%N.

(** Line boundaries of [str.splitlines]. *)
Definition is_linebreak (c : ascii) : bool :=
  between 10 13 c || between 28 30 c || (code c =? 133)%N.

Definition is_empty (s : string) : bool :=
  match s with EmptyString => true | String _ _ => false end.

(** [s.startswith(p)], returning what follows the prefix. *)
Fixpoint strip_prefix (p s : string) : option string :=
  match p, s with
  | EmptyString, _ => Some s
  | String a p', String b s' =>
      if Ascii.eqb a b then strip_prefix p' s' else None
  | String _ _, EmptyString => None
  end.

Definition startswith (p s : string) : bool :=
  match strip_prefix p s with Some _ => true | None => false end.

(** [s.endswith(p)]. *)
Fixpoint endswith (p s : string) : bool :=
  String.eqb s p
  || match s with
     | EmptyString => false
     | String _ s' => endswith p s'
     end.

(** The longest run of name characters at the head of [s]: what the
    greedy group [([a-zA-Z0-9._-]+)] captures when it is the last item of
    the pattern. *)
Fixpoint take_name (s : string) : string :=
  match s with
  | EmptyString => EmptyString
  | String c s' =>
      if is_name_char c then String c (take_name s') else EmptyString
  end.

(** [\s*]: drop leading white space. *)
Fixpoint lstrip (s : string) : string :=
  match s with
  | EmptyString => EmptyString
  | String c s' => if is_space c then lstrip s' else s
  end.

Fixpoint rstrip (s : string) : string :=
  match s with
  | EmptyString => EmptyString
  | String c s' =>
      let r := rstrip s' in
      if is_space c && is_empty r then EmptyString else String c r
  end.

(** [s.strip()]. *)
Definition strip (s : string) : string := rstrip (lstrip s).

(** A non-empty captured group, or no match. *)
Definition group1 (rest : string) : option string :=
  let name := take_name rest in
  if is_empty name then None else Some name.

(** The pattern [lit([a-zA-Z0-9._-]+)] tried at the first position of
    [s]. *)
Definition match_here (lit s : string) : option string :=
  match strip_prefix lit s with
  | Some rest => group1 rest
  | None => None
  end.

(** [re.compile(lit + "([a-zA-Z0-9._-]+)").search(s)]: the match at the
    leftmost position where the pattern matches; the result is group 1. *)
Fixpoint search (lit s : string) : option string :=
  match match_here lit s with
  | Some name => Some name
  | None =>
      match s with
      | EmptyString => None
      | String _ s' => search lit s'
      end
  end.

(** [re.match(lit + "\s*([a-zA-Z0-9._-]+)", s)]: anchored at the start. *)
Definition match_ws (lit s : string) : option string :=
  match strip_prefix lit s with
  | Some rest => group1 (lstrip rest)
  | None => None
  end.

(** [s.splitlines()]: the line terminators are dropped, ["\r\n"] counts
    as one, and a terminator at the very end opens no further line. *)
Fixpoint splitlines (s : string) : list string :=
  match s with
  | EmptyString => []
  | String c rest =>
      if is_linebreak c then
        EmptyString ::
          (if (code c =? 13)%N then
             match rest with
             | String d rest' =>
                 if (code d =? 10)%N then splitlines rest'
                 else splitlines rest
             | EmptyString => splitlines rest
             end
           else splitlines rest)
      else
        match splitlines rest with
        | [] => [String c EmptyString]
        | l :: ls => String c l :: ls
        end
  end.

End Text.

(** ** The failure parser *)

Module PipErrors.
Import Text.

Definition pattern1 : string := "No matching distribution found for ".
Definition pattern2 : string :=
  "Could not find a version that satisfies the requirement ".

(** One turn of the [for line in ...] loop: pattern 1 is searched first
    and, when it matches, [continue] skips pattern 2 for this line. *)
Definition scan_line (missing_deps : gset string) (line : string)
  : gset string :=
  match search pattern1 line with
  | Some name => missing_deps ∪ {[ strip name ]}
  | None =>
      match search pattern2 line with
      | Some name => missing_deps ∪ {[ strip name ]}
      | None => missing_deps
      end
  end.

Definition parse_pip_error_for_missing_deps (error_output : string)
  : gset string :=
  foldl scan_line ∅ (splitlines error_output).

End PipErrors.

(** ** The metadata extractor *)

Module Wheel.
Import Text.

(** What an archive holds for one member.  [Unreadable]: reading the
    member out of the archive raises (bad checksum, compression or
    encryption that [zipfile] cannot handle).  [Readable ls err]: the
    member can be copied out, and iterating over the copy opened with
    [encoding='utf-8'] yields the lines [ls] (each with its newline) and
    then stops, normally when [err] is false, with a [UnicodeDecodeError]
    when it is true (the text layer decodes the file chunk by chunk while
    the loop runs). *)
Inductive Member :=
| Unreadable
| Readable (lines : list string) (decode_error : bool).

(** A zip file is its directory, in order; names may repeat. *)
Abbreviation Archive := (list (string * Member)).

(** A regular file, under the two readings the extractor makes of a file:
    [zipfile.ZipFile(p)] gives [as_zip] ([None]: it raises, the file is not
    a zip archive), and iterating over [open(p, encoding='utf-8')] gives
    [as_text]: the lines, and whether a decoding error ends the
    iteration. *)
Record Content := {
  as_zip : option Archive;
  as_text : list string * bool;
}.

(** A binary file, zip archive or not: reading it as text fails at
    once.  [File (Some zip)] and [File None] below stand for such files. *)
Definition zip_file (zip : option Archive) : Content :=
  {| as_zip := zip; as_text := ([], true) |}.
#[warning="-uniform-inheritance"] Coercion zip_file : option >-> Content.

(** The copy that [zip_ref.extract] writes of a readable member. *)
Definition text_file (lines : list string) (decode_error : bool) : Content :=
  {| as_zip := None; as_text := (lines, decode_error) |}.

Inductive Node :=
| Directory
| File (content : Content).

(** The file system, by path.  Paths are kept in normal form, as
    [os.path.abspath] and [os.path.join] produce them in [pipass.py]:
    components separated by single slashes, none of them [.] or [..].  An
    entry lies in the directory that the path without its last component
    names. *)
Abbreviation Disk := (gmap string Node).

(** How a call ends: it returns a value, an exception of class [Exception]
    reaches the caller, or one outside that class does ([SystemExit],
    [KeyboardInterrupt]; [status] is the exit status of a process that such
    an exception ends). *)
Inductive Outcome (A : Type) :=
| Returned (a : A)
| Raised
| Interrupted (status : Z).
Arguments Returned {A} a.
Arguments Raised {A}.
Arguments Interrupted {A} status.

(** *** Paths *)

(** [p.split("/")]. *)
Fixpoint split_path (p : string) : list string :=
  match p with
  | EmptyString => [EmptyString]
  | String c rest =>
      if Ascii.eqb c "/" then EmptyString :: split_path rest
      else
        match split_path rest with
        | [] => [String c EmptyString]
        | x :: xs => String c x :: xs
        end
  end.

(** ["/".join(components)]. *)
Fixpoint join_path (components : list string) : string :=
  match components with
  | [] => EmptyString
  | c :: rest =>
      match rest with
      | [] => c
      | _ :: _ => c +:+ "/" +:+ join_path rest
      end
  end.

(** A path component that names an entry: not empty, not [.], not [..]. *)
Definition is_entry_name (c : string) : bool :=
  negb (is_empty c || String.eqb c "." || String.eqb c "..").

(** [os.path.join(a, b)]. *)
Definition path_join (a b : string) : string :=
  if startswith "/" b then b
  else if is_empty a || endswith "/" a then a +:+ b
  else a +:+ "/" +:+ b.

Fixpoint has_slash (p : string) : bool :=
  match p with
  | EmptyString => false
  | String c rest => Ascii.eqb c "/" || has_slash rest
  end.

(** [os.path.dirname(p)] for a path in normal form: what precedes the last
    slash (empty for a path directly under the root, whose parent always
    exists). *)
Fixpoint dirname (p : string) : string :=
  match p with
  | EmptyString => EmptyString
  | String c rest =>
      if has_slash rest then String c (dirname rest) else EmptyString
  end.

(** The directories above [p], outermost first: the non-empty prefixes of
    [p] that a slash follows; [before] is the part of the path already
    passed. *)
Fixpoint ancestors_from (before p : string) : list string :=
  match p with
  | EmptyString => []
  | String c rest =>
      (if Ascii.eqb c "/" && negb (is_empty before) then [before] else [])
      ++ ancestors_from (before +:+ String c EmptyString) rest
  end.

Definition ancestors (p : string) : list string :=
  ancestors_from EmptyString p.

(** *** File-system calls *)

Definition path_exists (p : string) (d : Disk) : bool :=
  match d !! p with Some _ => true | None => false end.

Definition isdir (p : string) (d : Disk) : bool :=
  match d !! p with Some Directory => true | _ => false end.

(** Making the directories [dirs], outermost first: one that is there
    stays, one that is missing is created, and a regular file in the way
    makes the call raise ([None]). *)
Fixpoint mkdirs (dirs : list string) (d : Disk) : option Disk :=
  match dirs with
  | [] => Some d
  | p :: rest =>
      match d !! p with
      | Some (File _) => None
      | Some Directory => mkdirs rest d
      | None => mkdirs rest (<[p := Directory]> d)
      end
  end.

(** [os.makedirs(p, exist_ok=True)]: every missing directory above [p] is
    created, then [p] itself; [None] when it raises because [p] is empty
    or a regular file sits at [p] or above it (nothing has been created
    then, as what lies above a missing directory is missing too). *)
Definition makedirs (p : string) (d : Disk) : option Disk :=
  if is_empty p then None else mkdirs (ancestors p ++ [p]) d.

(** [zipfile.ZipFile(p, 'r')]; [None] when it raises (no such file, a
    directory, not a zip file). *)
Definition open_zip (p : string) (d : Disk) : option Archive :=
  match d !! p with
  | Some (File content) => as_zip content
  | _ => None
  end.

(** [p] is [dir] or lies below it. *)
Definition under (dir p : string) : bool :=
  String.eqb p dir || startswith (dir +:+ "/") p.

(** [shutil.rmtree(p)]; [None] when it raises because [p] is not a
    directory. *)
Definition rmtree (p : string) (d : Disk) : option Disk :=
  match d !! p with
  | Some Directory => Some (filter (λ kv, under p kv.1 = false) d)
  | _ => None
  end.

(** The directory a walk stands in, as the components passed so far: the
    working directory ([[]]), the root ([[""]]), a directory above the
    working directory (only [..]), or an entry of the disk. *)
Definition names_directory (stack : list string) (d : Disk) : bool :=
  forallb (λ c, is_empty c || String.eqb c "..") stack
  || isdir (join_path stack) d.

(** One step up. *)
Definition parent (stack : list string) : list string :=
  match last stack with
  | None => [".."]
  | Some c =>
      if is_empty c then stack
      else if String.eqb c ".." then stack ++ [".."]
      else removelast stack
  end.

(** How the operating system resolves a path, component by component:
    every component is looked up in a directory ([None] when what the walk
    stands on is not one); empty components and [.] stay in place, [..]
    goes one step up. *)
Fixpoint walk (todo stack : list string) (d : Disk)
  : option (list string) :=
  match todo with
  | [] => Some stack
  | c :: rest =>
      if names_directory stack d then
        if is_empty c || String.eqb c "." then walk rest stack d
        else if String.eqb c ".." then walk rest (parent stack) d
        else walk rest (stack ++ [c]) d
      else None
  end.

(** [open(p, 'r', encoding='utf-8')] and the iteration over the lines;
    [None] when [open] raises (nothing there, or a directory). *)
Definition open_text (p : string) (d : Disk) : option (list string * bool) :=
  match walk (split_path p) (if startswith "/" p then [""] else []) d with
  | Some stack =>
      match d !! join_path stack with
      | Some (File content) => Some (as_text content)
      | _ => None
      end
  | None => None
  end.

(** *** The archive *)

Definition namelist (zip : Archive) : list string := zip.*1.

(** The entry the name table holds for [name]: the last one of the
    directory. *)
Definition getinfo (name : string) (zip : Archive) : option Member :=
  snd <$> List.find (λ e, String.eqb e.1 name) (rev zip).

(** How a block of statements ends. *)
Inductive Completion := Normal | Exception.

(** [zip_ref.extract(member, path)].  The member is written below [path]
    under its name without the components that are empty, [.] or [..]
    (so also without a leading slash); the directories above the target are
    made when the one just above it is missing.  [Exception]: no such
    member, nothing left of the name, a regular file in the way of a
    directory, the member unreadable, or a directory in the way of the
    file. *)
Definition zip_extract (member path : string) (zip : Archive) (d : Disk)
  : Completion * Disk :=
  match getinfo member zip with
  | None => (Exception, d)
  | Some m =>
      let arcname :=
        join_path (List.filter is_entry_name (split_path member)) in
      if is_empty arcname then (Exception, d)
      else
        let targetpath := path_join path arcname in
        let upperdirs := dirname targetpath in
        match
          (if negb (is_empty upperdirs) && negb (path_exists upperdirs d)
           then makedirs upperdirs d else Some d)
        with
        | None => (Exception, d)
        | Some d1 =>
            match m with
            | Unreadable => (Exception, d1)
            | Readable lines decode_error =>
                if (is_empty upperdirs || isdir upperdirs d1)
                   && negb (isdir targetpath d1)
                then (Normal,
                      <[targetpath := File (text_file lines decode_error)]>
                        d1)
                else (Exception, d1)
            end
        end
  end.

Definition metadata_suffix : string := ".dist-info/METADATA".
Definition requires_dist : string := "Requires-Dist:".

(** The first name of the directory ending in [.dist-info/METADATA]. *)
Definition find_metadata (names : list string) : option string :=
  List.find (endswith metadata_suffix) names.

(** The name a METADATA line declares, if any. *)
Definition line_dependency (line : string) : option string :=
  if startswith requires_dist line then
    match match_ws requires_dist line with
    | Some name => Some (strip name)
    | None => None
    end
  else None.

Definition read_line (dependencies : gset string) (line : string)
  : gset string :=
  match line_dependency line with
  | Some dep_name => dependencies ∪ {[ dep_name ]}
  | None => dependencies
  end.

(** The body of [with zipfile.ZipFile(...) as zip_ref]: the value of
    [dependencies] when the block is left, how it is left, and the disk.
    The member is extracted under its sanitised name and then opened under
    the name the archive gives. *)
Definition with_zip (temp_extract_dir : string) (zip : Archive) (d : Disk)
  : gset string * Completion * Disk :=
  match find_metadata (namelist zip) with
  | Some metadata_file_name =>
      if is_empty metadata_file_name then (∅, Normal, d)
      else
        match zip_extract metadata_file_name temp_extract_dir zip d with
        | (Exception, d1) => (∅, Exception, d1)
        | (Normal, d1) =>
            let metadata_path :=
              path_join temp_extract_dir metadata_file_name in
            match open_text metadata_path d1 with
            | None => (∅, Exception, d1)
            | Some (lines, decode_error) =>
                (foldl read_line ∅ lines,
                 if decode_error then Exception else Normal, d1)
            end
        end
  | None => (∅, Normal, d)
  end.

(** The body of the [try]: the value of [dependencies] when the block is
    left, how it is left, and the disk. *)
Definition try_block (whl_path temp_extract_dir : string) (d : Disk)
  : gset string * Completion * Disk :=
  match makedirs temp_extract_dir d with
  | None => (∅, Exception, d)
  | Some d1 =>
      match open_zip whl_path d1 with
      | None => (∅, Exception, d1)
      | Some zip => with_zip temp_extract_dir zip d1
      end
  end.

(** [try: ... except Exception: print ... finally: rmtree] and then
    [return dependencies].  The handler only prints, so the set built so
    far is what is returned; an exception of the [finally] clause is not
    handled and reaches the caller. *)
Definition extract_dependencies_from_whl (whl_path : string) (d : Disk)
  : Outcome (gset string) * Disk :=
  let temp_extract_dir := whl_path +:+ "_extracted_temp" in
  let '(dependencies, _, d1) := try_block whl_path temp_extract_dir d in
  if path_exists temp_extract_dir d1 then
    match rmtree temp_extract_dir d1 with
    | Some d2 => (Returned dependencies, d2)
    | None => (Raised, d1)
    end
  else (Returned dependencies, d1).

End Wheel.

(** ** The installation loop *)

Module Installer.
Import Text Wheel PipErrors.

(** The exceptions a capability can raise, by what the attempt does with
    them: [FileNotFoundError] and the other exceptions of class [Exception]
    have a handler each; an exception outside that class ([SystemExit],
    [KeyboardInterrupt]) has none and passes through every [except
    Exception].  [status] is the exit status of a process that such an
    exception ends. *)
Inductive Exn :=
| FileNotFoundError
| OtherException
| BaseException (status : Z).

(** What one call of the fetch capability does: it returns a path or
    [None], or it raises. *)
Inductive FetchResult :=
| FetchReturns (path : option string)
| FetchRaises (e : Exn).

(** What [subprocess.run(command, capture_output=True, text=True)] does. *)
Inductive PipResult :=
| PipExits (returncode : Z) (stdout stderr : string)
| PipRaises (e : Exn).

(** The world outside the function: the disk and whatever else the
    capabilities depend on. *)
Record World (E : Type) := { disk : Disk; env : E }.
Arguments disk {E} _.
Arguments env {E} _.

Definition with_disk {E} (d : Disk) (w : World E) : World E :=
  {| disk := d; env := env w |}.

(** The two injected capabilities and the interpreter path. *)
Class Capabilities (E : Type) := {
  fetch_func : string → string → World E → FetchResult * World E;
  subprocess_run : list string → World E → PipResult * World E;
  sys_executable : string;
}.

(** The order in which a [for] loop visits a set is not fixed by the
    language: any enumeration of the elements will do, and no property
    below depends on which one it is. *)
Class SetOrder := {
  iter : gset string → list string;
  iter_perm : ∀ s, iter s ≡ₚ elements s;
}.

#[export] Instance elements_order : SetOrder :=
  {| iter := elements; iter_perm := λ s, reflexivity (elements s) |}.

(** Truth value of [str | None]: [None] and the empty string are false. *)
Definition truthy (path : option string) : bool :=
  match path with
  | Some p => negb (is_empty p)
  | None => false
  end.

(** Ghost record, oldest first, of the calls made to the outside and of
    the names added to [downloaded_packages]. *)
Inductive Event :=
| EvFetch (name : string) (r : FetchResult)
| EvPip (r : PipResult)
| EvAdd (name : string).

(** The branch through which the function is left.  The code only prints a
    different message on each; the tag is ghost state. *)
Inductive Exit :=
| Installed
| MainPackageUnavailable
| Unparseable
| Stalled
| NoDownloadProgress
| MaxAttemptsExceeded
| CommandNotFound          (* [except FileNotFoundError] *)
| UnexpectedError          (* [except Exception] *)
| Propagated.              (* an exception left the function *)

Section Run.
Context {E : Type} {caps : Capabilities E} {order : SetOrder}.

(** The local variables, the world and the ghost log. *)
Record State := {
  downloaded_packages : gset string;
  installed_successfully : bool;
  attempt : Z;
  world : World E;
  log : list Event;
}.

(** [downloaded_packages.add(name)]. *)
Definition add_downloaded (name : string) (st : State) : State :=
  {| downloaded_packages := downloaded_packages st ∪ {[ name ]};
     installed_successfully := installed_successfully st;
     attempt := attempt st; world := world st;
     log := log st ++ [EvAdd name] |}.

Definition set_installed (st : State) : State :=
  {| downloaded_packages := downloaded_packages st;
     installed_successfully := true;
     attempt := attempt st; world := world st; log := log st |}.

Definition next_attempt (st : State) : State :=
  {| downloaded_packages := downloaded_packages st;
     installed_successfully := installed_successfully st;
     attempt := attempt st + 1; world := world st; log := log st |}.

Definition set_world (w : World E) (st : State) : State :=
  {| downloaded_packages := downloaded_packages st;
     installed_successfully := installed_successfully st;
     attempt := attempt st; world := w; log := log st |}.

Definition record (e : Event) (w : World E) (st : State) : State :=
  {| downloaded_packages := downloaded_packages st;
     installed_successfully := installed_successfully st;
     attempt := attempt st; world := w; log := log st ++ [e] |}.

(** [dep_path = fetch_func(dep, download_dir)]. *)
Definition call_fetch (dep download_dir : string) (st : State)
  : FetchResult * State :=
  let '(r, w) := fetch_func dep download_dir (world st) in
  (r, record (EvFetch dep r) w st).

(** The seed loop [for dep in initial_deps]; an exception of the fetch
    leaves the loop, and nothing catches it here. *)
Fixpoint fetch_initial (download_dir : string) (deps : list string)
  (st : State) : State * option Exn :=
  match deps with
  | [] => (st, None)
  | dep :: rest =>
      if decide (dep ∈ downloaded_packages st) then
        fetch_initial download_dir rest st
      else
        match call_fetch dep download_dir st with
        | (FetchRaises e, st1) => (st1, Some e)
        | (FetchReturns dep_path, st1) =>
            if truthy dep_path
            then fetch_initial download_dir rest (add_downloaded dep st1)
            else fetch_initial download_dir rest st1
        end
  end.

(** The download loop [for dep in newly_identified_deps] with its counter
    [download_success_count]; an exception of the fetch leaves the loop
    (and reaches the handlers of the attempt). *)
Fixpoint fetch_missing (download_dir : string) (deps : list string)
  (download_success_count : Z) (st : State) : State * Z * option Exn :=
  match deps with
  | [] => (st, download_success_count, None)
  | dep :: rest =>
      match call_fetch dep download_dir st with
      | (FetchRaises e, st1) => (st1, download_success_count, Some e)
      | (FetchReturns dep_path, st1) =>
          if truthy dep_path
          then fetch_missing download_dir rest (download_success_count + 1)
                 (add_downloaded dep st1)
          else fetch_missing download_dir rest download_success_count st1
      end
  end.

(** The value handed back, the branch taken and the final state. *)
Record Run := {
  result : Outcome bool;
  exit : Exit;
  final : State;
}.

Definition leave (x : Exit) (st : State) : Run :=
  {| result := Returned (installed_successfully st); exit := x; final := st |}.

(** What the caller sees of an exception that nothing catches. *)
Definition escape (e : Exn) : Outcome bool :=
  match e with
  | BaseException status => Interrupted status
  | FileNotFoundError | OtherException => Raised
  end.

Definition propagate (e : Exn) (st : State) : Run :=
  {| result := escape e; exit := Propagated; final := st |}.

(** [return False] after the failed fetch of the main package. *)
Definition abort (st : State) : Run :=
  {| result := Returned false; exit := MainPackageUnavailable; final := st |}.

(** The branch an exception raised inside the [try] of an attempt takes. *)
Definition handler (e : Exn) : Exit :=
  match e with
  | FileNotFoundError => CommandNotFound
  | OtherException => UnexpectedError
  | BaseException _ => Propagated
  end.

(** The [except] clauses of an attempt: both handlers print and [break],
    after which the function returns [installed_successfully]; an
    exception outside the class [Exception] matches neither clause and
    leaves the function. *)
Definition except (e : Exn) (st : State) : Run :=
  match e with
  | FileNotFoundError => leave CommandNotFound st
  | OtherException => leave UnexpectedError st
  | BaseException _ => propagate e st
  end.

Definition command (main_package_name download_dir : string) : list string :=
  [sys_executable; "-m"; "pip"; "install"; "--no-index";
   "--find-links"; download_dir; main_package_name].

(** The [while] loop.  [fuel] bounds the number of turns of the model;
    [None] means the fuel ran out with the loop condition still true. *)
Fixpoint retry_loop (main_package_name download_dir : string)
  (max_retries : Z) (fuel : nat) (st : State) : option Run :=
  if negb (installed_successfully st) && (attempt st <? max_retries) then
    match fuel with
    | O => None
    | S fuel' =>
        let st1 := next_attempt st in
        let '(r, w) :=
          subprocess_run (command main_package_name download_dir)
            (world st1) in
        let st2 := record (EvPip r) w st1 in
        match r with
        | PipRaises e => Some (except e st2)
        | PipExits returncode _ stderr =>
            if returncode =? 0 then
              retry_loop main_package_name download_dir max_retries fuel'
                (set_installed st2)
            else
              let missing_deps := parse_pip_error_for_missing_deps stderr in
              if decide (missing_deps = ∅) then Some (leave Unparseable st2)
              else
                let newly_identified_deps :=
                  missing_deps ∖ downloaded_packages st2 in
                if decide (newly_identified_deps = ∅)
                then Some (leave Stalled st2)
                else
                  match fetch_missing download_dir
                          (iter newly_identified_deps) 0 st2 with
                  | (st3, _, Some e) => Some (except e st3)
                  | (st3, download_success_count, None) =>
                      if (download_success_count =? 0)
                         && (0 <? Z.of_nat (size newly_identified_deps))
                      then Some (leave NoDownloadProgress st3)
                      else
                        retry_loop main_package_name download_dir
                          max_retries fuel' st3
                  end
        end
    end
  else
    Some (leave (if installed_successfully st then Installed
                 else MaxAttemptsExceeded) st).

Definition initial_state (w : World E) : State :=
  {| downloaded_packages := ∅; installed_successfully := false;
     attempt := 0; world := w; log := [] |}.

(** The state in which the [while] loop is entered, or the run that ended
    before it. *)
Definition seed (main_package_name download_dir : string) (w : World E)
  : Run + State :=
  match call_fetch main_package_name download_dir (initial_state w) with
  | (FetchRaises e, st1) => inl (propagate e st1)
  | (FetchReturns main_package_path, st1) =>
      match main_package_path with
      | Some path =>
          if is_empty path then inl (abort st1)
          else
            let st2 := add_downloaded main_package_name st1 in
            match extract_dependencies_from_whl path (disk (world st2)) with
            | (Raised, d) =>
                inl (propagate OtherException
                       (set_world (with_disk d (world st2)) st2))
            | (Interrupted status, d) =>
                inl (propagate (BaseException status)
                       (set_world (with_disk d (world st2)) st2))
            | (Returned initial_deps, d) =>
                let st3 := set_world (with_disk d (world st2)) st2 in
                match fetch_initial download_dir (iter initial_deps) st3 with
                | (st4, Some e) => inl (propagate e st4)
                | (st4, None) => inr st4
                end
            end
      | None => inl (abort st1)
      end
  end.

(** The whole function, with the fuel of the loop as a parameter. *)
Definition run_with_fuel (fuel : nat)
  (main_package_name download_dir : string) (max_retries : Z)
  (w : World E) : option Run :=
  match seed main_package_name download_dir w with
  | inl run => Some run
  | inr st => retry_loop main_package_name download_dir max_retries fuel st
  end.

(** The attempt counter starts at 0 and grows by one each turn, so
    [max_retries] turns of fuel are enough, and more fuel changes nothing
    (see [run_with_more_fuel]). *)
Definition install_packages_locally (main_package_name download_dir : string)
  (max_retries : Z) (w : World E) : option Run :=
  run_with_fuel (Z.to_nat max_retries) main_package_name download_dir
    max_retries w.

(** Number of install invocations in a log. *)
Definition is_pip (e : Event) : bool :=
  match e with EvPip _ => true | _ => false end.

Definition installs (l : list Event) : nat := length (List.filter is_pip l).

(** The fetch calls made for [name], oldest first. *)
Definition fetches_of (name : string) (l : list Event) : list FetchResult :=
  omap (λ e, match e with
             | EvFetch n r => if String.eqb n name then Some r else None
             | _ => None
             end) l.

(** The names added to [downloaded_packages] along a log. *)
Definition adds (l : list Event) : gset string :=
  list_to_set (omap (λ e, match e with EvAdd n => Some n | _ => None end) l).

(** Some fetch of [name] recorded in [l] returned a path. *)
Definition fetched (name : string) (l : list Event) : Prop :=
  ∃ p, EvFetch name (FetchReturns (Some p)) ∈ l ∧ is_empty p = false.

(** The log ends with an install invocation that exited with status 0. *)
Definition succeeded (l : list Event) : Prop :=
  ∃ stdout stderr, last l = Some (EvPip (PipExits 0 stdout stderr)).

(** The invariant of the log: every addition of a name comes right after
    a fetch of that name that returned a path. *)
Definition sound (l : list Event) : Prop :=
  ∀ pre post n, l = pre ++ EvAdd n :: post →
    ∃ pre' p, pre = pre' ++ [EvFetch n (FetchReturns (Some p))]
              ∧ is_empty p = false.

(** The invariant of the state. *)
Definition ok (st : State) : Prop :=
  downloaded_packages st = adds (log st) ∧ sound (log st).

(** A fetch capability that finds every package. *)
Definition always_fetches : Prop :=
  ∀ name download_dir w, ∃ path w',
    fetch_func name download_dir w = (FetchReturns (Some path), w')
    ∧ is_empty path = false.

(** The extractor returns on the wheel fetched for the main package (the
    clean-up of its scratch directory does not raise). *)
Definition main_wheel_extracts (main_package_name download_dir : string)
  (w : World E) : Prop :=
  ∀ path w',
    fetch_func main_package_name download_dir w
    = (FetchReturns (Some path), w') →
    (extract_dependencies_from_whl path (disk w')).1 ≠ Raised.

(** An install capability that fails every time, reporting exactly the
    missing name [x]. *)
Definition always_misses (x : string) : Prop :=
  ∀ cmd w, ∃ returncode stdout stderr w',
    subprocess_run cmd w = (PipExits returncode stdout stderr, w')
    ∧ returncode ≠ 0
    ∧ parse_pip_error_for_missing_deps stderr = {[ x ]}.

(** Some install invocation recorded in [l] exited with status 0. *)
Definition exited_zero (l : list Event) : Prop :=
  ∃ stdout stderr, EvPip (PipExits 0 stdout stderr) ∈ l.

(** How the value handed back goes with the branch taken. *)
Definition coherent (run : Run) : Prop :=
  match exit run with
  | Installed => result run = Returned true
  | Propagated =>
      result run = Raised ∨ ∃ status, result run = Interrupted status
  | _ => result run = Returned false
  end.

End Run.

Arguments State : clear implicits.
Arguments Run : clear implicits.

End Installer.

(** ** Scripted capabilities for concrete runs *)

Module Scenarios.
Import Text Wheel PipErrors Installer.

(** A wheel without declared dependencies. *)
Definition plain_wheel (name : string) : Node :=
  File (Some [(name +:+ "-1.0.dist-info/METADATA",
               Readable ["Name: " +:+ name +:+ String "010" ""] false)]).

(** A fetch that finds every package except those of [absent] and stores
    the wheel in the download directory, which it makes when it can; an
    installer that always exits with status 1 and the error text
    [stderr]. *)
Definition scripted (absent : list string) (stderr : string)
  : Capabilities unit :=
  {| fetch_func name download_dir w :=
       if bool_decide (name ∈ absent) then (FetchReturns None, w)
       else
         let path := download_dir +:+ "/" +:+ name +:+ ".whl" in
         let d := default (disk w) (makedirs download_dir (disk w)) in
         (FetchReturns (Some path),
          with_disk (<[path := plain_wheel name]> d) w);
     subprocess_run _ w := (PipExits 1 "" stderr, w);
     sys_executable := "python" |}.

(** A wheel whose METADATA declares foo on its first line and holds, far
    behind it, a byte that is not valid UTF-8: the text layer hands out the
    first line and raises when it decodes the later chunk. *)
Definition undecodable_tail : Archive :=
  [("a-1.0.dist-info/METADATA",
    Readable ["Requires-Dist: foo (>=1.0,<2)" +:+ String "010" ""] true)].

Definition sample_wheel : Archive :=
  [("a-1.0.dist-info/METADATA",
    Readable ["Name: a" +:+ String "010" "";
              "Requires-Dist: foo (>=1.0,<2)" +:+ String "010" ""] false)].

Definition empty_world : World unit := {| disk := ∅; env := tt |}.

Definition run_scripted (absent : list string) (stderr : string)
  (main_package_name : string) (max_retries : Z) : option (Run unit) :=
  @install_packages_locally unit (scripted absent stderr) elements_order
    main_package_name "downloads" max_retries empty_world.

Definition newline : string := String "010" "".

(** pip reports two missing packages, one of which cannot be fetched. *)
Definition two_missing : string :=
  "ERROR: No matching distribution found for good" +:+ newline
  +:+ "ERROR: No matching distribution found for ghost".

Definition one_missing : string :=
  "ERROR: Could not find a version that satisfies the requirement needs-dep (from versions: none)"
  +:+ newline +:+ "ERROR: No matching distribution found for needs-dep".

(** A state of the loop in which the package that pip will report has
    been downloaded already. *)
Definition nothing_new : State unit :=
  {| downloaded_packages := {[ "pkg" ]} ∪ {[ "needs-dep" ]};
     installed_successfully := false;
     attempt := 1;
     world := empty_world;
     log := [] |}.

Definition both_on_one_line : string :=
  "No matching distribution found for a; Could not find a version that satisfies the requirement b".

End Scenarios.

(** ** Vocabulary of the statements *)

Module Spec.
Import Text Wheel.

(** Every character of [s] satisfies [P]. *)
Fixpoint all_chars (P : ascii → bool) (s : string) : bool :=
  match s with
  | EmptyString => true
  | String c s' => P c && all_chars P s'
  end.

(** [l] is a contiguous part of [s]. *)
Definition part_of (l s : string) : Prop :=
  ∃ pre post, s = pre +:+ l +:+ post.

(** The trigger phrase [lit], followed by at least one name character,
    occurs somewhere in [s]. *)
Definition occurs (lit s : string) : Prop :=
  ∃ pre rest, s = pre +:+ lit +:+ rest ∧ is_empty (take_name rest) = false.

(** The scratch directory of [whl_path]. *)
Definition scratch (whl_path : string) : string :=
  whl_path +:+ "_extracted_temp".

(** No regular file occupies the scratch directory of [whl_path]. *)
Definition scratch_free (whl_path : string) (d : Disk) : Prop :=
  ∀ zip, d !! scratch whl_path ≠ Some (File zip).

End Spec.

(** ** The command line of [pipass.py] *)

Module Pipass.
Import Text Wheel Installer.

(** How the process ends: [main] returns; [sys.exit(code)] is called, or
    an exception outside the class [Exception] reaches the top level with
    that status; or an exception of class [Exception] that nobody catches
    ends it. *)
Inductive Ending :=
| Finished
| SysExit (code : Z)
| Crashed.

(** The exit status the operating system sees. *)
Definition exit_status (e : Ending) : Z :=
  match e with
  | Finished => 0
  | SysExit code => code
  | Crashed => 1
  end.

Section Main.
Context {E : Type} {caps : Capabilities E} {order : SetOrder}.

(** What a call of [main] leaves: how it ended, the calls made to the
    capabilities, and the world. *)
Record MainRun := {
  ending : Ending;
  calls : list Event;
  after : World E;
}.

(** [main()], with [sys.argv] and the constant [DOWNLOADS_DIR] as
    arguments.  The directory is created before the arguments are looked
    at; [install_packages_locally] is called with the default of five
    attempts; after it, both branches only print. *)
Definition main (DOWNLOADS_DIR : string) (argv : list string)
  (w : World E) : option MainRun :=
  match makedirs DOWNLOADS_DIR (disk w) with
  | None => Some {| ending := Crashed; calls := []; after := w |}
  | Some d1 =>
      let w1 := with_disk d1 w in
      match argv with
      | _ :: command :: _ =>
          if String.eqb command "--clean" then
            if path_exists DOWNLOADS_DIR d1 then
              match rmtree DOWNLOADS_DIR d1 with
              | Some d2 =>
                  Some {| ending := SysExit 0; calls := [];
                          after := with_disk d2 w |}
              | None =>
                  Some {| ending := SysExit 0; calls := []; after := w1 |}
              end
            else Some {| ending := SysExit 0; calls := []; after := w1 |}
          else
            match install_packages_locally command DOWNLOADS_DIR 5 w1 with
            | Some run =>
                Some {| ending := match result run with
                                  | Returned _ => Finished
                                  | Raised => Crashed
                                  | Interrupted status => SysExit status
                                  end;
                        calls := log (final run);
                        after := world (final run) |}
            | None => None
            end
      | _ => Some {| ending := SysExit 1; calls := []; after := w1 |}
      end
  end.

End Main.

Arguments MainRun : clear implicits.

End Pipass.

(** ** Further vocabulary *)

Module LogSpec.
Import Text Wheel Installer.

(** No fetch is made for a name that is in [downloaded_packages] at that
    point of the log. *)
Definition fresh (l : list Event) : Prop :=
  ∀ pre post n r, l = pre ++ EvFetch n r :: post → n ∉ adds pre.

(** A path in normal form: not empty, no empty component except a first
    one (which makes the path absolute), no component [.] or [..]. *)
Definition is_normal (p : string) : bool :=
  negb (is_empty p)
  && match split_path p with
     | [] => false
     | c :: rest =>
         (is_empty c || is_entry_name c) && forallb is_entry_name rest
     end.

(** A captured name: not empty, made of name characters only. *)
Definition is_token (n : string) : Prop :=
  is_empty n = false ∧ Spec.all_chars is_name_char n = true.

(** A fetch capability that reports absence for every name of [names]. *)
Definition never_fetches {E} {caps : Capabilities E} (names : gset string)
  : Prop :=
  ∀ name download_dir w, name ∈ names →
    ∃ path w', fetch_func name download_dir w = (FetchReturns path, w')
               ∧ truthy path = false.

(** An install capability that succeeds every time. *)
Definition always_installs {E} {caps : Capabilities E} : Prop :=
  ∀ cmd w, ∃ stdout stderr w',
    subprocess_run cmd w = (PipExits 0 stdout stderr, w').

(** What the caller sees when a call made inside an attempt raises [e]. *)
Definition attempt_outcome (e : Exn) : Outcome bool :=
  match e with
  | BaseException status => Interrupted status
  | FileNotFoundError | OtherException => Returned false
  end.

(** The log ends with a call that raised [e]. *)
Definition raised_last (e : Exn) (l : list Event) : Prop :=
  last l = Some (EvPip (PipRaises e))
  ∨ ∃ name, last l = Some (EvFetch name (FetchRaises e)).

(** What holds of a run once it has entered the loop: no fetch of a
    downloaded name; no more install invocations than downloaded names; no
    exception of class [Exception] left the function; the attempt counter
    counts the install invocations and has reached the bound when the
    attempts are exhausted; an install invocation that raised ended the
    run, through its handler if it has one; and an exception outside the
    class [Exception] that left the function was raised by the last
    call. *)
Definition settled {E} (max_retries : Z) (run : Run E) : Prop :=
  fresh (log (final run))
  ∧ (installs (log (final run)) ≤ size (downloaded_packages (final run)))%nat
  ∧ result run ≠ Raised
  ∧ (exit run = MaxAttemptsExceeded → max_retries ≤ attempt (final run))
  ∧ Z.of_nat (installs (log (final run))) = attempt (final run)
  ∧ (∀ e, EvPip (PipRaises e) ∈ log (final run) →
          exit run = handler e ∧ result run = attempt_outcome e)
  ∧ (∀ status, result run = Interrupted status →
               raised_last (BaseException status) (log (final run))).

End LogSpec.

(** ** Further scripted capabilities *)

Module MoreScenarios.
Import Text Wheel PipErrors Installer Pipass Scenarios.

(** A fetch that finds every package and an installer that succeeds. *)
Definition succeeding : Capabilities unit :=
  {| fetch_func := fetch_func (Capabilities := scripted [] "");
     subprocess_run _ w := (PipExits 0 "Successfully installed" "", w);
     sys_executable := "python" |}.

(** pip reports one missing package, which cannot be fetched. *)
Definition ghost_missing : string :=
  "ERROR: No matching distribution found for ghost".

(** [python pipass.py <arguments>] with scripted capabilities, in an
    empty world. *)
Definition main_scripted (absent : list string) (stderr : string)
  (arguments : list string) : option (MainRun unit) :=
  main (caps := scripted absent stderr) "/pipass/downloads"
    ("pipass.py" :: arguments) empty_world.

End MoreScenarios.

(** * Properties *)

(** ** Text primitives *)

Module TextFacts.
Import Text Spec.

Lemma append_cons (c : ascii) (a b : string) :
  String c a +:+ b = String c (a +:+ b).
Proof. reflexivity. Qed.

Lemma append_nil_l (s : string) : "" +:+ s = s.
Proof. reflexivity. Qed.

Lemma append_nil_r (s : string) : s +:+ "" = s.
Proof. induction s as [|c s IH]; [done | by rewrite append_cons, IH]. Qed.

Lemma append_assoc (a b c : string) : (a +:+ b) +:+ c = a +:+ b +:+ c.
Proof. induction a as [|x a IH]; [done | by rewrite !append_cons, IH]. Qed.

Lemma append_length (a b : string) :
  String.length (a +:+ b) = (String.length a + String.length b)%nat.
Proof. induction a as [|x a IH]; [done | simpl; f_equal; exact IH]. Qed.

Lemma is_empty_true (s : string) : is_empty s = true ↔ s = "".
Proof. by destruct s. Qed.

Lemma strip_prefix_Some (p s r : string) :
  strip_prefix p s = Some r ↔ s = p +:+ r.
Proof.
  revert s. induction p as [|a p IH]; intros s; simpl.
  - rewrite append_nil_l. split; congruence.
  - rewrite append_cons. destruct s as [|b s]; [split; discriminate|].
    destruct (Ascii.eqb_spec a b) as [->|Hne].
    + rewrite IH. split; congruence.
    + split; [discriminate | congruence].
Qed.

Lemma strip_prefix_app (p r : string) : strip_prefix p (p +:+ r) = Some r.
Proof. by apply strip_prefix_Some. Qed.

Lemma startswith_app (p s : string) :
  startswith p s = true ↔ ∃ r, s = p +:+ r.
Proof.
  unfold startswith. destruct (strip_prefix p s) as [r|] eqn:E.
  - apply strip_prefix_Some in E. naive_solver.
  - split; [discriminate|]. intros [r ->].
    by rewrite strip_prefix_app in E.
Qed.

(** A name character is not white space. *)
Lemma name_char_not_space (c : ascii) :
  is_name_char c = true → is_space c = false.
Proof.
  destruct c as [[] [] [] [] [] [] [] []]; vm_compute; congruence.
Qed.

Lemma take_name_all (s : string) : all_chars is_name_char (take_name s) = true.
Proof.
  induction s as [|c s IH]; simpl; [done|].
  destruct (is_name_char c) eqn:E; simpl; [by rewrite E | done].
Qed.

Lemma lstrip_name (s : string) :
  all_chars is_name_char s = true → lstrip s = s.
Proof.
  destruct s as [|c s]; simpl; [done|].
  intros [Hc _]%andb_prop. by rewrite (name_char_not_space c).
Qed.

Lemma rstrip_name (s : string) :
  all_chars is_name_char s = true → rstrip s = s.
Proof.
  induction s as [|c s IH]; simpl; [done|].
  intros [Hc Hs]%andb_prop. rewrite IH by done.
  by rewrite (name_char_not_space c).
Qed.

(** [strip] leaves a captured name as it is. *)
Lemma strip_name (s : string) :
  all_chars is_name_char s = true → strip s = s.
Proof.
  intros Hs. unfold strip. rewrite lstrip_name by done. by apply rstrip_name.
Qed.

Lemma group1_Some (rest name : string) :
  group1 rest = Some name →
  name = take_name rest ∧ is_empty name = false.
Proof.
  unfold group1. destruct (is_empty (take_name rest)) eqn:E; [done|].
  intros [= <-]. done.
Qed.

Lemma group1_strip (rest name : string) :
  group1 rest = Some name → strip name = name.
Proof.
  intros [-> _]%group1_Some. apply strip_name, take_name_all.
Qed.

Lemma search_unfold (lit s : string) :
  search lit s =
  match match_here lit s with
  | Some name => Some name
  | None =>
      match s with
      | EmptyString => None
      | String _ s' => search lit s'
      end
  end.
Proof. by destruct s. Qed.

Lemma search_Some (lit s name : string) :
  search lit s = Some name →
  ∃ pre rest, s = pre +:+ lit +:+ rest ∧ group1 rest = Some name.
Proof.
  induction s as [|c s IH]; simpl.
  - unfold match_here. destruct (strip_prefix lit "") as [rest|] eqn:E;
      [|done].
    destruct (group1 rest) as [n|] eqn:G; [|done]. intros [= <-].
    apply strip_prefix_Some in E. by exists "", rest.
  - unfold match_here.
    destruct (strip_prefix lit (String c s)) as [rest|] eqn:E.
    + destruct (group1 rest) as [n|] eqn:G.
      * intros [= <-]. apply strip_prefix_Some in E. by exists "", rest.
      * intros (pre & r & -> & Hr)%IH. by exists (String c pre), r.
    + intros (pre & r & -> & Hr)%IH. by exists (String c pre), r.
Qed.

Lemma search_strip (lit s name : string) :
  search lit s = Some name → strip name = name.
Proof. intros (? & ? & _ & G)%search_Some. by eapply group1_strip. Qed.

Lemma search_occurs (lit s : string) :
  occurs lit s → is_Some (search lit s).
Proof.
  intros (pre & rest & -> & Hne). induction pre as [|c pre IH].
  - rewrite append_nil_l, search_unfold. unfold match_here, group1.
    rewrite strip_prefix_app, Hne. eauto.
  - rewrite append_cons, search_unfold.
    destruct (match_here lit (String c (pre +:+ lit +:+ rest))); eauto.
Qed.

Lemma search_Some_occurs (lit s name : string) :
  search lit s = Some name → occurs lit s.
Proof.
  intros (pre & rest & -> & G)%search_Some.
  exists pre, rest. split; [done|]. unfold group1 in G.
  by destruct (is_empty (take_name rest)).
Qed.

Lemma search_None (lit s : string) : search lit s = None ↔ ¬ occurs lit s.
Proof.
  split.
  - intros E [n Hn]%search_occurs. congruence.
  - intros Hno. destruct (search lit s) as [n|] eqn:E; [|done].
    destruct Hno. by eapply search_Some_occurs.
Qed.

Lemma occurs_part (lit l s : string) :
  part_of l s → occurs lit l → occurs lit s.
Proof.
  intros (a & b & ->) (pre & rest & -> & Hne).
  exists (a +:+ pre), (rest +:+ b). split.
  - by rewrite !append_assoc.
  - revert Hne. clear. destruct rest as [|c rest]; simpl; [done|].
    by destruct (is_name_char c).
Qed.

Lemma part_of_empty (s : string) : part_of "" s.
Proof. by exists "", s. Qed.

Lemma part_of_tail (c : ascii) (l s : string) :
  part_of l s → part_of l (String c s).
Proof. intros (pre & post & ->). by exists (String c pre), post. Qed.

Lemma part_of_head (l post : string) : part_of l (l +:+ post).
Proof. by exists "", post. Qed.

(** The first line is the beginning of the text. *)
Lemma splitlines_head (s l : string) (ls : list string) :
  splitlines s = l :: ls → ∃ post, s = l +:+ post.
Proof.
  revert l ls. induction s as [|c rest IH]; intros l ls; simpl; [done|].
  destruct (is_linebreak c).
  - intros [= <- _]. by exists (String c rest).
  - destruct (splitlines rest) as [|l0 ls0] eqn:E.
    + intros [= <- _]. by exists rest.
    + intros [= <- _]. destruct (IH l0 ls0 eq_refl) as [post ->].
      by exists post.
Qed.

Lemma splitlines_part_bounded (n : nat) (s l : string) :
  (String.length s < n)%nat → l ∈ splitlines s → part_of l s.
Proof.
  revert s l. induction n as [|n IH]; intros s l Hlen; [lia|].
  destruct s as [|c rest]; simpl in *; [by intros ?%elem_of_nil|].
  destruct (is_linebreak c).
  - intros [->|Hl]%elem_of_cons; [apply part_of_empty|].
    apply part_of_tail. destruct (code c =? 13)%N.
    + destruct rest as [|d rest']; [by apply elem_of_nil in Hl|].
      destruct (code d =? 10)%N.
      * apply part_of_tail, IH; [simpl in Hlen; lia | done].
      * apply IH; [lia | done].
    + apply IH; [lia | done].
  - destruct (splitlines rest) as [|l0 ls0] eqn:E.
    + intros ->%list_elem_of_singleton. apply (part_of_head (String c "")).
    + intros [->|Hl]%elem_of_cons.
      * destruct (splitlines_head _ _ _ E) as [post ->].
        apply (part_of_head (String c l0)).
      * apply part_of_tail, IH; [lia|]. rewrite E. by right.
Qed.

(** Matching is line-local: every line is a contiguous part of the
    text. *)
Lemma splitlines_part (s l : string) : l ∈ splitlines s → part_of l s.
Proof. by apply (splitlines_part_bounded (S (String.length s))); lia. Qed.

(** The search goes on past an occurrence of the phrase that no name
    follows. *)
Example search_leftmost_match :
  search "found for "
    "found for  (nothing); No matching distribution found for x-1.0_b!"
  = Some "x-1.0_b".
Proof. reflexivity. Qed.

Example match_ws_samples :
  match_ws "Requires-Dist:" "Requires-Dist: charset-normalizer (>=2.0.0,<4)"
  = Some "charset-normalizer"
  ∧ match_ws "Requires-Dist:" "Requires-Dist:idna>=2.5" = Some "idna"
  ∧ match_ws "Requires-Dist:" "Requires-Dist: PySocks[socks]; extra == 's'"
    = Some "PySocks"
  ∧ match_ws "Requires-Dist:" "Requires-Dist: (broken)" = None.
Proof. by split_and!. Qed.

Example splitlines_samples :
  splitlines ("a" +:+ String "010" (String "013" (String "010" "b"))
              +:+ String "010" "") = ["a"; ""; "b"]
  ∧ splitlines "" = []
  ∧ splitlines (String "010" "") = [""].
Proof. by split_and!. Qed.

End TextFacts.

(** ** The failure parser *)

Module PipFacts.
Import Text PipErrors Spec TextFacts Scenarios.

(** What a line adds to the result: the name found by pattern 1, or, only
    when pattern 1 finds nothing, the name found by pattern 2. *)
Lemma scan_line_elem (acc : gset string) (line n : string) :
  n ∈ scan_line acc line ↔
  n ∈ acc ∨ search pattern1 line = Some n
  ∨ (search pattern1 line = None ∧ search pattern2 line = Some n).
Proof.
  unfold scan_line.
  destruct (search pattern1 line) as [a|] eqn:E1.
  - rewrite (search_strip _ _ _ E1), elem_of_union, elem_of_singleton.
    split; [intros [?| ->]; auto | intros [?|[[= ->]|[[=] _]]]; auto].
  - destruct (search pattern2 line) as [b|] eqn:E2.
    + rewrite (search_strip _ _ _ E2), elem_of_union, elem_of_singleton.
      split; [intros [?| ->]; auto | intros [?|[[=]|[_ [= ->]]]]; auto].
    + split; [auto | intros [?|[[=]|[_ [=]]]]; auto].
Qed.

Lemma scan_lines_elem (lines : list string) (acc : gset string) (n : string) :
  n ∈ foldl scan_line acc lines ↔
  n ∈ acc ∨ ∃ line, line ∈ lines ∧
    (search pattern1 line = Some n
     ∨ (search pattern1 line = None ∧ search pattern2 line = Some n)).
Proof.
  revert acc. induction lines as [|l lines IH]; intros acc; simpl.
  - split; [by left | by intros [?|(? & ?%elem_of_nil & _)]].
  - rewrite IH, scan_line_elem. split.
    + intros [[?|?]|(line & ? & ?)]; [by left| |].
      * right. exists l. split; [left|]; done.
      * right. exists line. split; [by right | done].
    + intros [?|(line & [->|?]%elem_of_cons & ?)]; [by left; left| |].
      * by left; right.
      * right. by exists line.
Qed.

Lemma parse_elem (error_output n : string) :
  n ∈ parse_pip_error_for_missing_deps error_output ↔
  ∃ line, line ∈ splitlines error_output ∧
    (search pattern1 line = Some n
     ∨ (search pattern1 line = None ∧ search pattern2 line = Some n)).
Proof.
  unfold parse_pip_error_for_missing_deps. rewrite scan_lines_elem.
  split; [|by right]. by intros [?%not_elem_of_empty|?].
Qed.

(** C6, as the code has it.  A name is in the result exactly when some
    line yields it, and on each line the recognizers are tried in order
    with the first hit ending the line: pattern 2 contributes only on
    lines where pattern 1 finds nothing. *)
Theorem C6_first_recognizer_wins (error_output n : string) :
  n ∈ parse_pip_error_for_missing_deps error_output ↔
  ∃ line, line ∈ splitlines error_output ∧
    (search pattern1 line = Some n
     ∨ (search pattern1 line = None ∧ search pattern2 line = Some n)).
Proof. apply parse_elem. Qed.

(** C6, as stated, fails: on one line holding both phrases, both
    recognizers match, yet only the name of the first phrase is
    returned. *)
Lemma C6_both_phrases_one_line :
  splitlines both_on_one_line = [both_on_one_line]
  ∧ search pattern1 both_on_one_line = Some "a"
  ∧ search pattern2 both_on_one_line = Some "b"
  ∧ parse_pip_error_for_missing_deps both_on_one_line = {[ "a" ]}
  ∧ "b" ∉ parse_pip_error_for_missing_deps both_on_one_line.
Proof.
  repeat split; try (vm_compute; reflexivity).
  apply (bool_decide_unpack _). vm_compute. exact I.
Qed.

Lemma parse_no_match (error_output : string) :
  search pattern1 error_output = None →
  search pattern2 error_output = None →
  parse_pip_error_for_missing_deps error_output = ∅.
Proof.
  intros H1%search_None H2%search_None. apply set_eq. intros n.
  rewrite parse_elem. split; [|by intros ?%not_elem_of_empty].
  intros (line & Hl%splitlines_part & [E|[_ E]]); exfalso.
  - apply H1. eapply occurs_part; [done|]. by eapply search_Some_occurs.
  - apply H2. eapply occurs_part; [done|]. by eapply search_Some_occurs.
Qed.

(** C7.  The sample error text yields exactly bar, and a text in which
    neither pattern matches anywhere yields the empty set, an ordinary
    value of the total function. *)
Theorem C7_parse_precision :
  parse_pip_error_for_missing_deps
    "ERROR: No matching distribution found for bar" = {[ "bar" ]}
  ∧ ∀ error_output,
      search pattern1 error_output = None →
      search pattern2 error_output = None →
      parse_pip_error_for_missing_deps error_output = ∅.
Proof.
  split; [vm_compute; reflexivity|]. apply parse_no_match.
Qed.

Lemma C7_parse_precision_witness :
  search pattern1 "ERROR: Invalid requirement: 'foo=='" = None
  ∧ search pattern2 "ERROR: Invalid requirement: 'foo=='" = None
  ∧ parse_pip_error_for_missing_deps "ERROR: Invalid requirement: 'foo=='"
    = ∅.
Proof.
  split; [reflexivity|]. split; [reflexivity|].
  apply (proj2 C7_parse_precision); reflexivity.
Defined.

End PipFacts.

(** ** The metadata extractor *)

Module WheelFacts.
Import Text Wheel Spec TextFacts Scenarios.

(** *** Paths *)

Lemma has_slash_app (a b : string) : has_slash (a +:+ "/" +:+ b) = true.
Proof.
  induction a as [|c a IH]; [done|].
  rewrite append_cons. simpl. rewrite IH. apply orb_true_r.
Qed.

(** What lies above an entry of [dir] is [dir] or lies below it. *)
Lemma dirname_app (dir p : string) :
  dirname (dir +:+ "/" +:+ p)
  = if has_slash p then dir +:+ "/" +:+ dirname p else dir.
Proof.
  induction dir as [|c dir IH].
  - rewrite append_nil_l. change ("/" +:+ p) with (String "/" p). simpl.
    by destruct (has_slash p).
  - rewrite append_cons. simpl. rewrite has_slash_app, IH.
    by destruct (has_slash p).
Qed.

Lemma ancestors_from_app (before a b : string) :
  ancestors_from before (a +:+ b)
  = ancestors_from before a ++ ancestors_from (before +:+ a) b.
Proof.
  revert before. induction a as [|c a IH]; intros before.
  - by rewrite append_nil_l, append_nil_r.
  - rewrite append_cons. simpl. rewrite IH, <- (assoc_L (++)).
    by rewrite append_assoc.
Qed.

Lemma ancestors_from_prefix (before p a : string) :
  a ∈ ancestors_from before p → ∃ r, a = before +:+ r.
Proof.
  revert before. induction p as [|c p IH]; intros before; simpl.
  - by intros ?%elem_of_nil.
  - intros [Ha|Ha]%elem_of_app.
    + destruct (Ascii.eqb c "/" && negb (is_empty before));
        [|by apply elem_of_nil in Ha].
      apply list_elem_of_singleton in Ha as ->. exists "".
      by rewrite append_nil_r.
    + apply IH in Ha as [r ->]. exists (String c r).
      by rewrite append_assoc.
Qed.

(** The directories above an entry of [dir]: those above [dir], [dir]
    itself, and directories below [dir]. *)
Lemma ancestors_below (dir p a : string) :
  a ∈ ancestors (dir +:+ "/" +:+ p) →
  a ∈ ancestors dir ++ [dir] ∨ startswith (dir +:+ "/") a = true.
Proof.
  unfold ancestors. rewrite ancestors_from_app.
  intros [Ha|Ha]%elem_of_app.
  - left. apply elem_of_app. by left.
  - change ("/" +:+ p) with (String "/" p) in Ha. simpl in Ha.
    rewrite !append_nil_l in Ha. apply elem_of_app in Ha as [Ha|Ha].
    + destruct (negb (is_empty dir)); [|by apply elem_of_nil in Ha].
      left. apply elem_of_app. by right.
    + right. apply ancestors_from_prefix in Ha as [r ->].
      apply startswith_app. by exists r.
Qed.

Lemma startswith_below (dir p : string) :
  startswith (dir +:+ "/") (dir +:+ "/" +:+ p) = true.
Proof. apply startswith_app. exists p. by rewrite append_assoc. Qed.

Lemma below_longer (dir p : string) :
  startswith (dir +:+ "/") p = true →
  (String.length dir < String.length p)%nat.
Proof.
  intros [r ->]%startswith_app. rewrite !append_length. simpl. lia.
Qed.

Lemma not_below_self (dir : string) : startswith (dir +:+ "/") dir = false.
Proof.
  destruct (startswith (dir +:+ "/") dir) eqn:E; [|done].
  apply below_longer in E. lia.
Qed.

Lemma ancestor_shorter (before p a : string) :
  a ∈ ancestors_from before p →
  (String.length a < String.length before + String.length p)%nat.
Proof.
  revert before. induction p as [|c p IH]; intros before; simpl.
  - by intros ?%elem_of_nil.
  - intros [Ha|Ha]%elem_of_app.
    + destruct (Ascii.eqb c "/" && negb (is_empty before));
        [|by apply elem_of_nil in Ha].
      apply list_elem_of_singleton in Ha as ->. lia.
    + apply IH in Ha. rewrite append_length in Ha. simpl in Ha. lia.
Qed.

(** Nothing above a directory is that directory or lies below it. *)
Lemma ancestor_not_under (dir a : string) :
  a ∈ ancestors dir → under dir a = false.
Proof.
  intros Ha%ancestor_shorter. simpl in Ha. unfold under.
  apply orb_false_intro.
  - apply String.eqb_neq. intros ->. lia.
  - destruct (startswith (dir +:+ "/") a) eqn:E; [|done].
    apply below_longer in E. lia.
Qed.

Lemma startswith_slash (a : ascii) (s : string) :
  startswith "/" (String a s) = Ascii.eqb a "/".
Proof.
  unfold startswith.
  change (strip_prefix "/" (String a s))
    with (if Ascii.eqb "/" a then Some s else None).
  rewrite (Ascii.eqb_sym a). by destruct (Ascii.eqb "/" a).
Qed.

(** The components of a path hold no slash, so none starts with one. *)
Lemma split_path_components (p c : string) :
  c ∈ split_path p → startswith "/" c = false.
Proof.
  revert c. induction p as [|x p IH]; intros c; simpl.
  - by intros ->%list_elem_of_singleton.
  - destruct (Ascii.eqb x "/") eqn:Ex.
    + intros [->|Hc]%elem_of_cons; [done | by apply IH].
    + destruct (split_path p) as [|y ys] eqn:Es.
      * intros ->%list_elem_of_singleton. by rewrite startswith_slash.
      * intros [->|Hc]%elem_of_cons.
        -- by rewrite startswith_slash.
        -- apply IH. by right.
Qed.

Lemma join_path_head (c : string) (rest : list string) :
  is_empty c = false →
  startswith "/" (join_path (c :: rest)) = startswith "/" c.
Proof.
  destruct c as [|x c]; [done|]. intros _.
  destruct rest; [done|]. simpl join_path. rewrite append_cons.
  by rewrite !startswith_slash.
Qed.

(** The name under which a member is written is relative. *)
Lemma arcname_relative (member : string) :
  startswith "/"
    (join_path (List.filter is_entry_name (split_path member))) = false.
Proof.
  destruct (List.filter is_entry_name (split_path member)) as [|c rest]
    eqn:Ef; [done|].
  assert (In c (List.filter is_entry_name (split_path member))) as Hc
    by (rewrite Ef; by left).
  apply List.filter_In in Hc as [Hc%list_elem_of_In He].
  rewrite join_path_head.
  - by eapply split_path_components.
  - unfold is_entry_name in He. by destruct c.
Qed.

Lemma path_join_below (dir member : string) :
  is_empty dir = false → endswith "/" dir = false →
  let arcname :=
    join_path (List.filter is_entry_name (split_path member)) in
  path_join dir arcname = dir +:+ "/" +:+ arcname.
Proof.
  intros He Hs. unfold path_join.
  by rewrite arcname_relative, He, Hs.
Qed.

Lemma scratch_ne (p : string) : scratch p ≠ p.
Proof.
  intros E%(f_equal String.length). unfold scratch in E.
  rewrite append_length in E. simpl in E. lia.
Qed.

Lemma scratch_nonempty (p : string) : is_empty (scratch p) = false.
Proof. unfold scratch. by destruct p. Qed.

Lemma scratch_no_trailing_slash (p : string) :
  endswith "/" (scratch p) = false.
Proof.
  unfold scratch. induction p as [|c p IH]; [done|].
  rewrite append_cons. simpl. rewrite IH, orb_false_r.
  destruct (Ascii.eqb c "/"); [|done]. by destruct p.
Qed.

(** The archive is neither the scratch directory nor below it. *)
Lemma archive_outside_scratch (p : string) : under (scratch p) p = false.
Proof.
  unfold under. apply orb_false_intro.
  - apply String.eqb_neq. intros E. by apply (scratch_ne p).
  - destruct (startswith (scratch p +:+ "/") p) eqn:E; [|done].
    apply startswith_app in E as [r E%(f_equal String.length)].
    unfold scratch in E. rewrite !append_length in E. simpl in E. lia.
Qed.

Lemma under_self (dir : string) : under dir dir = true.
Proof. unfold under. by rewrite String.eqb_refl. Qed.

Lemma under_below (dir p : string) :
  startswith (dir +:+ "/") p = true → under dir p = true.
Proof. unfold under. intros ->. apply orb_true_r. Qed.

(** *** File-system calls *)

(** What [mkdirs] leaves when it returns: the directories asked for, and
    everything else as it was; none of them was a regular file. *)
Lemma mkdirs_Some (dirs : list string) (d d' : Disk) :
  mkdirs dirs d = Some d' →
  (∀ k, d' !! k = if bool_decide (k ∈ dirs) then Some Directory
                  else d !! k)
  ∧ (∀ a, a ∈ dirs → d !! a = None ∨ d !! a = Some Directory).
Proof.
  revert d. induction dirs as [|p rest IH]; intros d; simpl.
  - intros [= <-]. split; [done|]. by intros a ?%elem_of_nil.
  - destruct (d !! p) as [[|c]|] eqn:Ep; [| done |].
    + intros [Hk Ha]%IH. split.
      * intros k. rewrite Hk.
        destruct (decide (k = p)) as [->|Hne].
        -- rewrite (bool_decide_true (p ∈ p :: rest)) by left.
           rewrite Ep. by case_bool_decide.
        -- case_bool_decide as Hr.
           ++ by rewrite bool_decide_true by by right.
           ++ rewrite bool_decide_false; [done|].
              by intros [?|?]%elem_of_cons.
      * intros a [->|Hin]%elem_of_cons; [by right | by apply Ha].
    + intros [Hk Ha]%IH. split.
      * intros k. rewrite Hk.
        destruct (decide (k = p)) as [->|Hne].
        -- rewrite (bool_decide_true (p ∈ p :: rest)) by left.
           rewrite lookup_insert_eq. by case_bool_decide.
        -- rewrite lookup_insert_ne by done. case_bool_decide as Hr.
           ++ by rewrite bool_decide_true by by right.
           ++ rewrite bool_decide_false; [done|].
              by intros [?|?]%elem_of_cons.
      * intros a [->|Hin]%elem_of_cons; [by left|].
        destruct (decide (a = p)) as [->|Hne]; [by left|].
        specialize (Ha a Hin). by rewrite lookup_insert_ne in Ha.
Qed.

(** [mkdirs] raises exactly when a regular file is in the way. *)
Lemma mkdirs_None (dirs : list string) (d : Disk) :
  mkdirs dirs d = None ↔ ∃ a c, a ∈ dirs ∧ d !! a = Some (File c).
Proof.
  revert d. induction dirs as [|p rest IH]; intros d; simpl.
  - split; [done|]. by intros (a & c & ?%elem_of_nil & _).
  - destruct (d !! p) as [[|c]|] eqn:Ep.
    + rewrite IH. split.
      * intros (a & c & Hin & Ha). exists a, c. split; [by right | done].
      * intros (a & c & [->|Hin]%elem_of_cons & Ha); [congruence|].
        by exists a, c.
    + split; [|done]. intros _. exists p, c. split; [left | done].
    + rewrite IH. split.
      * intros (a & c & Hin & Ha). exists a, c. split; [by right|].
        destruct (decide (a = p)) as [->|Hne].
        -- by rewrite lookup_insert_eq in Ha.
        -- by rewrite lookup_insert_ne in Ha.
      * intros (a & c & [->|Hin]%elem_of_cons & Ha); [congruence|].
        exists a, c. split; [done|].
        rewrite lookup_insert_ne; [done|]. intros <-. congruence.
Qed.

Lemma makedirs_scratch (p : string) (d : Disk) :
  makedirs (scratch p) d = mkdirs (ancestors (scratch p) ++ [scratch p]) d.
Proof. unfold makedirs. by rewrite scratch_nonempty. Qed.

Lemma makedirs_Some (p : string) (d d' : Disk) :
  makedirs p d = Some d' →
  (∀ k, d' !! k = if bool_decide (k ∈ ancestors p ++ [p])
                  then Some Directory else d !! k)
  ∧ (∀ a, a ∈ ancestors p ++ [p] → d !! a = None ∨ d !! a = Some Directory).
Proof.
  unfold makedirs. destruct (is_empty p); [done|]. apply mkdirs_Some.
Qed.

(** An entry that is there is left as it is. *)
Lemma makedirs_keeps (p k : string) (d d' : Disk) (x : Node) :
  makedirs p d = Some d' → d !! k = Some x → d' !! k = Some x.
Proof.
  intros [Hk Ha]%makedirs_Some Hx. rewrite Hk. case_bool_decide as Hin; [|done].
  destruct (Ha k Hin) as [?|?]; congruence.
Qed.

Lemma makedirs_made (p : string) (d d' : Disk) :
  makedirs p d = Some d' → d' !! p = Some Directory.
Proof.
  intros [Hk _]%makedirs_Some. rewrite Hk, bool_decide_true; [done|].
  apply elem_of_app. right. by left.
Qed.

Lemma rmtree_lookup (dir p : string) (d d' : Disk) :
  rmtree dir d = Some d' → under dir p = false → d' !! p = d !! p.
Proof.
  unfold rmtree. destruct (d !! dir) as [[|zip]|]; try done.
  intros [= <-] Hp. rewrite map_lookup_filter.
  destruct (d !! p) as [x|]; simpl; [|done].
  by rewrite option_guard_True.
Qed.

Lemma rmtree_lookup_under (dir q : string) (d d' : Disk) :
  rmtree dir d = Some d' → under dir q = true → d' !! q = None.
Proof.
  unfold rmtree. destruct (d !! dir) as [[|zip]|]; try done.
  intros [= <-] Hq. apply map_lookup_filter_None. right.
  intros x _. simpl. by rewrite Hq.
Qed.

Lemma rmtree_gone (dir : string) (d d' : Disk) :
  rmtree dir d = Some d' → d' !! dir = None.
Proof. intros Hrm. eapply rmtree_lookup_under; [done | apply under_self]. Qed.

Lemma rmtree_directory (dir : string) (d : Disk) :
  d !! dir = Some Directory → is_Some (rmtree dir d).
Proof. unfold rmtree. intros ->. eauto. Qed.

(** *** The [try] block *)

(** [zip_ref.extract] writes below the directory it is given and nowhere
    else, provided that directory is there. *)
Lemma zip_extract_frame (member dir : string) (zip : Archive) (d d' : Disk)
  (c : Completion) :
  is_empty dir = false → endswith "/" dir = false →
  (∀ a, a ∈ ancestors dir ++ [dir] → d !! a ≠ None) →
  zip_extract member dir zip d = (c, d') →
  ∀ k, startswith (dir +:+ "/") k = false → d' !! k = d !! k.
Proof.
  intros He Hs Hdir. unfold zip_extract.
  destruct (getinfo member zip) as [m|]; [|by intros [= _ <-]].
  rewrite (path_join_below dir member He Hs).
  set (arcname := join_path (List.filter is_entry_name (split_path member))).
  destruct (is_empty arcname); [by intros [= _ <-]|].
  set (targetpath := dir +:+ "/" +:+ arcname).
  set (upperdirs := dirname targetpath).
  assert (∀ d1,
    (if negb (is_empty upperdirs) && negb (path_exists upperdirs d)
     then makedirs upperdirs d else Some d) = Some d1 →
    ∀ k, startswith (dir +:+ "/") k = false → d1 !! k = d !! k) as Hmk.
  { intros d1 Hd1 k Hk.
    destruct (negb (is_empty upperdirs) && negb (path_exists upperdirs d));
      [|by injection Hd1 as <-].
    apply makedirs_Some in Hd1 as [Hlook Hold]. rewrite Hlook.
    case_bool_decide as Hin; [|done].
    assert (k ∈ ancestors dir ++ [dir]) as Hup.
    { unfold upperdirs, targetpath in Hin. rewrite dirname_app in Hin.
      destruct (has_slash arcname).
      - apply elem_of_app in Hin as [Hin|Hin%list_elem_of_singleton].
        + apply ancestors_below in Hin as [?|?]; [done | congruence].
        + subst k. by rewrite startswith_below in Hk.
      - done. }
    destruct (Hold k Hin) as [?|?]; [|done]. by destruct (Hdir k Hup). }
  destruct (if negb (is_empty upperdirs) && negb (path_exists upperdirs d)
            then makedirs upperdirs d else Some d) as [d1|] eqn:Hd1;
    [|by intros [= _ <-]].
  specialize (Hmk d1 eq_refl).
  destruct m as [|lines err]; [by intros [= _ <-]|].
  destruct ((is_empty upperdirs || isdir upperdirs d1)
            && negb (isdir targetpath d1)); intros [= _ <-]; [|done].
  intros k Hk. rewrite lookup_insert_ne; [by apply Hmk|].
  intros <-. unfold targetpath in Hk. by rewrite startswith_below in Hk.
Qed.

Lemma with_zip_frame (dir : string) (zip : Archive) (d d' : Disk)
  (deps : gset string) (c : Completion) :
  is_empty dir = false → endswith "/" dir = false →
  (∀ a, a ∈ ancestors dir ++ [dir] → d !! a ≠ None) →
  with_zip dir zip d = (deps, c, d') →
  ∀ k, startswith (dir +:+ "/") k = false → d' !! k = d !! k.
Proof.
  intros He Hs Hdir. unfold with_zip.
  destruct (find_metadata (namelist zip)) as [name|]; [|by intros [= _ _ <-]].
  destruct (is_empty name); [by intros [= _ _ <-]|].
  destruct (zip_extract name dir zip d) as [c1 d1] eqn:Hz.
  pose proof (zip_extract_frame _ _ _ _ _ _ He Hs Hdir Hz) as Hframe.
  destruct c1.
  - destruct (open_text (path_join dir name) d1) as [[lines err]|];
      by intros [= _ _ <-].
  - by intros [= _ _ <-].
Qed.

(** The [try] block once the scratch directory has been made: the archive
    is read from the disk as it was, and nothing changes outside the
    scratch directory. *)
Lemma try_block_made (p : string) (d d1 : Disk) :
  makedirs (scratch p) d = Some d1 →
  ∃ deps c d2,
    try_block p (scratch p) d = (deps, c, d2)
    ∧ (∀ k, startswith (scratch p +:+ "/") k = false → d2 !! k = d1 !! k)
    ∧ match open_zip p d with
      | Some zip => with_zip (scratch p) zip d1 = (deps, c, d2)
      | None => deps = ∅
      end.
Proof.
  intros Hmk. unfold try_block. rewrite Hmk.
  assert (open_zip p d1 = open_zip p d) as ->.
  { pose proof (makedirs_Some _ _ _ Hmk) as [Hk Ha]. unfold open_zip.
    rewrite Hk. case_bool_decide as Hin; [|done].
    destruct (Ha p Hin) as [-> | ->]; done. }
  destruct (open_zip p d) as [zip|]; [|by eexists _, _, _].
  destruct (with_zip (scratch p) zip d1) as [[deps c] d2] eqn:Hw.
  exists deps, c, d2. split_and!; [done | | done].
  eapply with_zip_frame; [apply scratch_nonempty
                         |apply scratch_no_trailing_slash| |done].
  intros a Ha. apply makedirs_Some in Hmk as [Hk _].
  rewrite Hk, bool_decide_true; done.
Qed.

(** *** The extractor *)

(** When the scratch directory can be made, the function returns what the
    [try] block collected, however the block was left; the scratch
    directory and all below it are removed, the directories made above it
    stay. *)
Lemma extract_made (p : string) (d d1 : Disk) :
  makedirs (scratch p) d = Some d1 →
  ∃ d',
    extract_dependencies_from_whl p d
    = (Returned (try_block p (scratch p) d).1.1, d')
    ∧ ∀ q, d' !! q = if under (scratch p) q then None else d1 !! q.
Proof.
  intros Hmk. unfold extract_dependencies_from_whl. fold (scratch p).
  destruct (try_block_made p d d1 Hmk) as (deps & c & d2 & -> & Hframe & _).
  assert (d2 !! scratch p = Some Directory) as Hdir.
  { rewrite Hframe by apply not_below_self. by eapply makedirs_made. }
  unfold path_exists. rewrite Hdir.
  destruct (rmtree_directory _ _ Hdir) as [d' Hrm]. rewrite Hrm.
  exists d'. split; [done|]. intros q.
  destruct (under (scratch p) q) eqn:Hq.
  - by eapply rmtree_lookup_under.
  - rewrite (rmtree_lookup _ _ _ _ Hrm Hq). apply Hframe.
    unfold under in Hq. by apply orb_false_elim in Hq as [_ ?].
Qed.

(** When it cannot, because a regular file sits at the scratch path or
    above it, the handler swallows the exception of [makedirs]; then the
    [finally] clause finds nothing at the scratch path and the function
    returns the empty set, or finds the regular file, on which [rmtree]
    raises: that exception reaches the caller, and the disk is as
    before. *)
Lemma extract_not_made (p : string) (d : Disk) :
  makedirs (scratch p) d = None →
  extract_dependencies_from_whl p d
  = match d !! scratch p with
    | Some (File _) => (Raised, d)
    | Some Directory =>
        (Returned ∅, filter (λ kv, under (scratch p) kv.1 = false) d)
    | None => (Returned ∅, d)
    end.
Proof.
  intros Hmk. unfold extract_dependencies_from_whl, try_block.
  fold (scratch p). rewrite Hmk. unfold path_exists, rmtree.
  by destruct (d !! scratch p) as [[|c]|].
Qed.

Lemma makedirs_occupied (p : string) (d : Disk) (c : Content) :
  d !! scratch p = Some (File c) → makedirs (scratch p) d = None.
Proof.
  intros Hc. rewrite makedirs_scratch. apply mkdirs_None.
  exists (scratch p), c. split; [|done]. apply elem_of_app. right. by left.
Qed.

(** A regular file at the scratch path makes the function raise. *)
Lemma extract_scratch_occupied (p : string) (d : Disk) (c : Content) :
  d !! scratch p = Some (File c) →
  extract_dependencies_from_whl p d = (Raised, d).
Proof.
  intros Hc. rewrite extract_not_made by by eapply makedirs_occupied.
  by rewrite Hc.
Qed.

(** No call inside the function raises outside the class [Exception]. *)
Lemma extract_never_interrupted (p : string) (d : Disk) (status : Z) :
  (extract_dependencies_from_whl p d).1 ≠ Interrupted status.
Proof.
  destruct (makedirs (scratch p) d) as [d1|] eqn:Hmk.
  - by destruct (extract_made p d d1 Hmk) as (d' & -> & _).
  - rewrite (extract_not_made p d Hmk).
    by destruct (d !! scratch p) as [[|c]|].
Qed.

(** Otherwise it returns what the [try] block collected. *)
Lemma extract_scratch_free (p : string) (d : Disk) :
  scratch_free p d →
  (extract_dependencies_from_whl p d).1
  = Returned (try_block p (scratch p) d).1.1.
Proof.
  intros Hfree. destruct (makedirs (scratch p) d) as [d1|] eqn:Hmk.
  - by destruct (extract_made p d d1 Hmk) as (d' & -> & _).
  - rewrite (extract_not_made p d Hmk). unfold try_block. rewrite Hmk.
    destruct (d !! scratch p) as [[|c]|] eqn:E; try done.
    by destruct (Hfree c).
Qed.

(** With nothing at the scratch path or below it, a run on the disk that
    a first run leaves gives the same result: the second run makes the
    scratch directory on the same disk as the first. *)
Lemma extract_twice (p : string) (d : Disk) :
  (∀ q, under (scratch p) q = true → d !! q = None) →
  (extract_dependencies_from_whl p (extract_dependencies_from_whl p d).2).1
  = (extract_dependencies_from_whl p d).1.
Proof.
  intros Hclean.
  destruct (makedirs (scratch p) d) as [d1|] eqn:Hmk.
  - destruct (extract_made p d d1 Hmk) as (d' & Hex & Hd').
    rewrite Hex. simpl.
    pose proof (makedirs_Some _ _ _ Hmk) as [Hk Ha].
    assert (makedirs (scratch p) d' = Some d1) as Hmk'.
    { rewrite makedirs_scratch.
      destruct (mkdirs (ancestors (scratch p) ++ [scratch p]) d')
        as [d1'|] eqn:Hm.
      - f_equal. apply map_eq. intros k.
        apply mkdirs_Some in Hm as [Hk' _]. rewrite Hk', Hk.
        case_bool_decide as Hin; [done|]. rewrite Hd', Hk.
        rewrite bool_decide_false by done.
        destruct (under (scratch p) k) eqn:Hu; [|done].
        symmetry. by apply Hclean.
      - apply mkdirs_None in Hm as (a & c & Hin & Hc).
        rewrite Hd', Hk, bool_decide_true in Hc by done.
        by destruct (under (scratch p) a). }
    destruct (extract_made p d' d1 Hmk') as (d'' & -> & _). simpl.
    unfold try_block. by rewrite Hmk, Hmk'.
  - rewrite (extract_not_made p d Hmk).
    rewrite (Hclean (scratch p)) by apply under_self. simpl.
    rewrite (extract_not_made p d Hmk).
    by rewrite (Hclean (scratch p)) by apply under_self.
Qed.

(** Whatever the disk, a run leaves the disk in a state from which
    further runs repeat each other. *)
Lemma extract_settles (p : string) (d : Disk) :
  let d' := (extract_dependencies_from_whl p d).2 in
  (extract_dependencies_from_whl p (extract_dependencies_from_whl p d').2).1
  = (extract_dependencies_from_whl p d').1.
Proof.
  simpl. destruct (makedirs (scratch p) d) as [d1|] eqn:Hmk.
  - destruct (extract_made p d d1 Hmk) as (d' & -> & Hd'). simpl.
    apply extract_twice. intros q Hq. by rewrite Hd', Hq.
  - rewrite (extract_not_made p d Hmk).
    destruct (d !! scratch p) as [[|c]|] eqn:E; simpl.
    + apply extract_twice. intros q Hq. apply map_lookup_filter_None.
      right. intros x _. simpl. by rewrite Hq.
    + rewrite (extract_scratch_occupied p d c E). simpl.
      by rewrite (extract_scratch_occupied p d c E).
    + rewrite (extract_not_made p d Hmk), E. simpl.
      by rewrite (extract_not_made p d Hmk), E.
Qed.

(** What a [Requires-Dist:] line contributes: the longest run of name
    characters after the field name and optional white space, if there is
    one. *)
Lemma read_line_requires_dist (deps : gset string) (rest : string) :
  read_line deps (requires_dist +:+ rest) =
  if is_empty (take_name (lstrip rest)) then deps
  else deps ∪ {[ take_name (lstrip rest) ]}.
Proof.
  unfold read_line, line_dependency, startswith, match_ws.
  rewrite strip_prefix_app. unfold group1.
  destruct (is_empty (take_name (lstrip rest))); [done|].
  by rewrite strip_name by apply take_name_all.
Qed.

(** The names the [try] block collects. *)
Lemma try_block_deps (p : string) (d : Disk) :
  (try_block p (scratch p) d).1.1
  = match makedirs (scratch p) d, open_zip p d with
    | Some d1, Some zip => (with_zip (scratch p) zip d1).1.1
    | _, _ => ∅
    end.
Proof.
  destruct (makedirs (scratch p) d) as [d1|] eqn:Hmk.
  - destruct (try_block_made p d d1 Hmk) as (deps & c & d2 & -> & _ & Hz).
    destruct (open_zip p d) as [zip|]; [by rewrite Hz | done].
  - unfold try_block. by rewrite Hmk.
Qed.

Lemma zip_extract_unreadable (member dir : string) (zip : Archive)
  (d : Disk) :
  getinfo member zip = Some Unreadable →
  (zip_extract member dir zip d).1 = Exception.
Proof.
  intros Hg. unfold zip_extract. rewrite Hg.
  destruct (is_empty _); [done|].
  by destruct (if negb _ && negb _ then _ else _).
Qed.

(** C9, as the code has it.  With nothing at the scratch path or below
    it, extracting again, from the disk the first extraction leaves, gives
    the same outcome; whatever the disk, a first extraction leaves one on
    which further extractions repeat each other.  The line
    [Requires-Dist: foo (>=1.0,<2)] contributes exactly foo, which is the
    run of name characters that follows the field name and white space. *)
Theorem C9_extraction_repeatable_and_name_only :
  (∀ whl_path d,
     (∀ q, under (scratch whl_path) q = true → d !! q = None) →
     (extract_dependencies_from_whl whl_path
        (extract_dependencies_from_whl whl_path d).2).1
     = (extract_dependencies_from_whl whl_path d).1)
  ∧ (∀ whl_path d,
       let d' := (extract_dependencies_from_whl whl_path d).2 in
       (extract_dependencies_from_whl whl_path
          (extract_dependencies_from_whl whl_path d').2).1
       = (extract_dependencies_from_whl whl_path d').1)
  ∧ read_line ∅ "Requires-Dist: foo (>=1.0,<2)" = {[ "foo" ]}
  ∧ (extract_dependencies_from_whl "a.whl"
       {[ "a.whl" := File (Some sample_wheel) ]}).1 = Returned {[ "foo" ]}
  ∧ (∀ deps rest,
       read_line deps (requires_dist +:+ rest) =
       if is_empty (take_name (lstrip rest)) then deps
       else deps ∪ {[ take_name (lstrip rest) ]}).
Proof.
  split; [apply extract_twice|].
  split; [apply extract_settles|].
  split; [vm_compute; reflexivity|].
  split; [vm_compute; reflexivity|].
  apply read_line_requires_dist.
Qed.

Lemma C9_extraction_repeatable_and_name_only_witness :
  (∀ q, under (scratch "a.whl") q = true →
        ({[ "a.whl" := File (Some sample_wheel) ]} : Disk) !! q = None)
  ∧ (extract_dependencies_from_whl "a.whl"
       (extract_dependencies_from_whl "a.whl"
          {[ "a.whl" := File (Some sample_wheel) ]}).2).1
    = (extract_dependencies_from_whl "a.whl"
         {[ "a.whl" := File (Some sample_wheel) ]}).1.
Proof.
  assert (∀ q, under (scratch "a.whl") q = true →
               ({[ "a.whl" := File (Some sample_wheel) ]} : Disk) !! q = None)
    as Hclean.
  { intros q Hq. apply lookup_singleton_ne. intros <-.
    vm_compute in Hq. discriminate. }
  split; [exact Hclean|].
  exact (proj1 C9_extraction_repeatable_and_name_only "a.whl" _ Hclean).
Defined.

(** C9, as stated, fails: the result depends on what lies in the scratch
    directory.  A file left at [a.whl_extracted_temp/a-1.0.dist-info] is in
    the way of the directory that [zip_ref.extract] needs: the first
    extraction fails inside the [try] and returns the empty set; the
    clean-up removes the scratch directory with that file, and the second
    extraction from the same archive returns foo. *)
Lemma C9_leftover_file_changes_result :
  let d : Disk :=
    {[ "a.whl" := File (Some sample_wheel);
       "a.whl_extracted_temp" := Directory;
       "a.whl_extracted_temp/a-1.0.dist-info" := File None ]} in
  (extract_dependencies_from_whl "a.whl" d).1 = Returned ∅
  ∧ (extract_dependencies_from_whl "a.whl" d).2 !! "a.whl"
    = Some (File (Some sample_wheel))
  ∧ (extract_dependencies_from_whl "a.whl"
       (extract_dependencies_from_whl "a.whl" d).2).1 = Returned {[ "foo" ]}
  ∧ (extract_dependencies_from_whl "a.whl"
       (extract_dependencies_from_whl "a.whl" d).2).1
    ≠ (extract_dependencies_from_whl "a.whl" d).1.
Proof.
  split; [vm_compute; reflexivity|].
  split; [vm_compute; reflexivity|].
  split; [vm_compute; reflexivity|].
  vm_compute. discriminate.
Qed.

(** An exception inside the [try] block never reaches the caller. *)
Lemma extract_failure_caught (p : string) (d : Disk) :
  scratch_free p d →
  ∃ deps, (extract_dependencies_from_whl p d).1 = Returned deps.
Proof. intros ->%extract_scratch_free. eauto. Qed.

(** A failure to open the archive, to find the entry or to read the member
    gives the empty set. *)
Lemma extract_open_failure (p : string) (d : Disk) :
  scratch_free p d → open_zip p d = None →
  (extract_dependencies_from_whl p d).1 = Returned ∅.
Proof.
  intros ->%extract_scratch_free Hz. rewrite try_block_deps, Hz.
  by destruct (makedirs (scratch p) d).
Qed.

Lemma extract_member_failure (p : string) (d : Disk) (zip : Archive)
  (name : string) :
  scratch_free p d → open_zip p d = Some zip →
  find_metadata (namelist zip) = Some name →
  getinfo name zip = Some Unreadable →
  (extract_dependencies_from_whl p d).1 = Returned ∅.
Proof.
  intros ->%extract_scratch_free Hz Hf Hg. rewrite try_block_deps, Hz.
  destruct (makedirs (scratch p) d) as [d1|]; [|done].
  unfold with_zip. rewrite Hf. destruct (is_empty name); [done|].
  pose proof (zip_extract_unreadable name (scratch p) zip d1 Hg) as Hx.
  destruct (zip_extract name (scratch p) zip d1) as [c d2].
  simpl in Hx. by subst c.
Qed.

(** C8 at the failing input.  The METADATA of the wheel declares foo and
    has an undecodable tail: reading it raises (the [try] block is left by
    an exception), the exception is caught, and the function returns the
    names read before the failure, which is not the empty set. *)
Theorem C8_decode_error_keeps_partial_result :
  let d : Disk := {[ "a.whl" := File (Some undecodable_tail) ]} in
  (try_block "a.whl" "a.whl_extracted_temp" d).1.2 = Exception
  ∧ (extract_dependencies_from_whl "a.whl" d).1 = Returned {[ "foo" ]}
  ∧ (extract_dependencies_from_whl "a.whl" d).1 ≠ Returned ∅.
Proof.
  split; [vm_compute; reflexivity|].
  split; [vm_compute; reflexivity|].
  vm_compute. discriminate.
Qed.

End WheelFacts.

(** ** The installation loop *)

Module InstallerFacts.
Import Text Wheel PipErrors Installer Spec TextFacts WheelFacts Scenarios.

Lemma installs_app (l1 l2 : list Event) :
  installs (l1 ++ l2) = (installs l1 + installs l2)%nat.
Proof. unfold installs. by rewrite List.filter_app, length_app. Qed.

Lemma adds_app (l1 l2 : list Event) : adds (l1 ++ l2) = adds l1 ∪ adds l2.
Proof. unfold adds. by rewrite omap_app, list_to_set_app_L. Qed.

Lemma adds_nil : adds [] = ∅.
Proof. done. Qed.

Lemma adds_cons_add (n : string) (l : list Event) :
  adds (EvAdd n :: l) = {[ n ]} ∪ adds l.
Proof. done. Qed.

Lemma adds_cons_fetch (n : string) (r : FetchResult) (l : list Event) :
  adds (EvFetch n r :: l) = adds l.
Proof. done. Qed.

Lemma adds_add (n : string) : adds [EvAdd n] = {[ n ]}.
Proof. unfold adds. simpl. apply right_id_L, _. Qed.

Lemma adds_fetch (n : string) (r : FetchResult) : adds [EvFetch n r] = ∅.
Proof. done. Qed.

Lemma adds_pip (r : PipResult) : adds [EvPip r] = ∅.
Proof. done. Qed.

Lemma fetched_app_l (n : string) (l l' : list Event) :
  fetched n l → fetched n (l ++ l').
Proof.
  intros (p & Hin & Hp). exists p. split; [|done].
  apply elem_of_app. by left.
Qed.

Lemma fetched_app_r (n : string) (l l' : list Event) :
  fetched n l' → fetched n (l ++ l').
Proof.
  intros (p & Hin & Hp). exists p. split; [|done].
  apply elem_of_app. by right.
Qed.

Lemma sound_nil : sound [].
Proof. intros pre post n E. by destruct pre. Qed.

(** Splitting a log that was extended by one event. *)
Lemma snoc_split (l pre post : list Event) (e x : Event) :
  l ++ [e] = pre ++ x :: post →
  (post = [] ∧ pre = l ∧ x = e) ∨ (∃ post', post = post' ++ [e]
                                    ∧ l = pre ++ x :: post').
Proof.
  destruct post as [|y post' _] using rev_ind.
  - intros [-> ->]%app_inj_tail. by left.
  - change (pre ++ x :: post' ++ [y]) with (pre ++ (x :: post') ++ [y]).
    rewrite (assoc_L (++)). intros [-> ->]%app_inj_tail.
    right. by exists post'.
Qed.

Lemma sound_snoc_fetch (l : list Event) (n : string) (r : FetchResult) :
  sound l → sound (l ++ [EvFetch n r]).
Proof.
  intros Hl pre post m [(_ & _ & [=])|(post' & _ & ->)]%snoc_split.
  by eapply Hl.
Qed.

Lemma sound_snoc_pip (l : list Event) (r : PipResult) :
  sound l → sound (l ++ [EvPip r]).
Proof.
  intros Hl pre post m [(_ & _ & [=])|(post' & _ & ->)]%snoc_split.
  by eapply Hl.
Qed.

Lemma sound_snoc_add (l : list Event) (n p : string) :
  sound l → is_empty p = false →
  sound ((l ++ [EvFetch n (FetchReturns (Some p))]) ++ [EvAdd n]).
Proof.
  intros Hl Hp pre post m [(_ & -> & [= ->])|(post' & _ & E)]%snoc_split.
  - by exists l, p.
  - eapply sound_snoc_fetch; done.
Qed.

(** The claim's reading of the invariant: at every point of the log, a
    name that has been added has been fetched before. *)
Lemma sound_fetched (l pre post : list Event) (n : string) :
  sound l → l = pre ++ post → n ∈ adds pre → fetched n pre.
Proof.
  intros Hl ->. unfold adds. rewrite elem_of_list_to_set, list_elem_of_omap.
  intros (e & Hin & He). destruct e as [| |m]; try done.
  injection He as ->. apply list_elem_of_split in Hin as (a & b & ->).
  destruct (Hl a (b ++ post) n) as (a' & p & -> & Hp).
  { by rewrite <- (assoc_L (++)). }
  exists p. split; [|done]. rewrite !elem_of_app, list_elem_of_singleton.
  auto.
Qed.

Lemma sound_no_add_after_absence (l pre post : list Event) (n : string)
  (p : option string) :
  sound l → l = pre ++ EvFetch n (FetchReturns p) :: EvAdd n :: post →
  truthy p = true.
Proof.
  intros Hl E.
  destruct (Hl (pre ++ [EvFetch n (FetchReturns p)]) post n)
    as (a & q & [_ [= ->]]%app_inj_tail & Hq).
  { by rewrite <- (assoc_L (++)). }
  simpl. by rewrite Hq.
Qed.


Lemma pip_snoc_fetch (l : list Event) (n : string) (q : FetchResult)
  (r : PipResult) :
  EvPip r ∈ l ++ [EvFetch n q] → EvPip r ∈ l.
Proof.
  by intros [?|[=]%list_elem_of_singleton]%elem_of_app.
Qed.

Lemma pip_snoc_add (l : list Event) (n : string) (r : PipResult) :
  EvPip r ∈ l ++ [EvAdd n] → EvPip r ∈ l.
Proof.
  by intros [?|[=]%list_elem_of_singleton]%elem_of_app.
Qed.

(** Counting install invocations in an extended log. *)
Ltac count := rewrite ?installs_app; unfold installs; simpl; lia.

Section Runs.
Context {E : Type} {caps : Capabilities E} {order : SetOrder}.

Implicit Types st : State E.

Lemma call_fetch_eq (dep dir : string) st :
  call_fetch dep dir st =
  ((fetch_func dep dir (world st)).1,
   record (EvFetch dep (fetch_func dep dir (world st)).1)
     (fetch_func dep dir (world st)).2 st).
Proof. unfold call_fetch. by destruct (fetch_func dep dir (world st)). Qed.

Lemma ok_fetch (dep : string) (r : FetchResult) (w : World E) st :
  ok st → ok (record (EvFetch dep r) w st).
Proof.
  intros [Hd Hs]. split; simpl.
  - by rewrite adds_app, adds_fetch, (right_id_L ∅ (∪)).
  - by apply sound_snoc_fetch.
Qed.

Lemma ok_pip (r : PipResult) (w : World E) st :
  ok st → ok (record (EvPip r) w st).
Proof.
  intros [Hd Hs]. split; simpl.
  - by rewrite adds_app, adds_pip, (right_id_L ∅ (∪)).
  - by apply sound_snoc_pip.
Qed.

Lemma ok_add (dep : string) (p : option string) (w : World E) st :
  ok st → truthy p = true →
  ok (add_downloaded dep (record (EvFetch dep (FetchReturns p)) w st)).
Proof.
  intros [Hd Hs] Hp. destruct p as [p|]; [|done]. split; simpl.
  - rewrite !adds_app, adds_fetch, adds_add, (right_id_L ∅ (∪)).
    by rewrite Hd.
  - apply sound_snoc_add; [done|]. simpl in Hp. by destruct (is_empty p).
Qed.

(** The download loop of an attempt touches neither the attempt counter
    nor the success flag, makes no install invocation and keeps the
    invariant. *)
Lemma fetch_missing_inv (dir : string) (deps : list string) (c : Z) st
  st' (c' : Z) (oe : option Exn) :
  fetch_missing dir deps c st = (st', c', oe) →
  attempt st' = attempt st
  ∧ installed_successfully st' = installed_successfully st
  ∧ installs (log st') = installs (log st)
  ∧ (ok st → ok st').
Proof.
  revert c st. induction deps as [|dep rest IH]; intros c st; simpl.
  - by intros [= <- _ _].
  - rewrite call_fetch_eq.
    destruct (fetch_func dep dir (world st)) as [[p|e] w]; simpl.
    + destruct (truthy p) eqn:Hp.
      * intros (Ha & Hi & Hn & Hok)%IH. simpl in *.
        rewrite Hn. split_and!; [done | done | count|].
        intros ?. by apply Hok, ok_add.
      * intros (Ha & Hi & Hn & Hok)%IH. simpl in *.
        rewrite Hn. split_and!; [done | done | count|].
        intros ?. by apply Hok, ok_fetch.
    + intros [= <- _ _]. simpl.
      split_and!; [done | done | count|]. intros ?. by apply ok_fetch.
Qed.

Lemma fetch_initial_inv (dir : string) (deps : list string) st st'
  (oe : option Exn) :
  fetch_initial dir deps st = (st', oe) →
  attempt st' = attempt st
  ∧ installed_successfully st' = installed_successfully st
  ∧ installs (log st') = installs (log st)
  ∧ (ok st → ok st').
Proof.
  revert st. induction deps as [|dep rest IH]; intros st; simpl.
  - by intros [= <- _].
  - destruct (decide (dep ∈ downloaded_packages st)); [apply IH|].
    rewrite call_fetch_eq.
    destruct (fetch_func dep dir (world st)) as [[p|e] w]; simpl.
    + destruct (truthy p) eqn:Hp.
      * intros (Ha & Hi & Hn & Hok)%IH. simpl in *.
        rewrite Hn. split_and!; [done | done | count|].
        intros ?. by apply Hok, ok_add.
      * intros (Ha & Hi & Hn & Hok)%IH. simpl in *.
        rewrite Hn. split_and!; [done | done | count|].
        intros ?. by apply Hok, ok_fetch.
    + intros [= <- _]. simpl.
      split_and!; [done | done | count|]. intros ?. by apply ok_fetch.
Qed.

Lemma coherent_propagate (e : Exn) st : coherent (propagate e st).
Proof. unfold coherent. destruct e; simpl; eauto. Qed.

(** What the seed phase establishes. *)
Lemma seed_inv (main dir : string) (w : World E) :
  match seed main dir w with
  | inl run =>
      ok (final run) ∧ installs (log (final run)) = 0%nat ∧ coherent run
      ∧ exit run ≠ Installed
  | inr st =>
      ok st ∧ installs (log st) = 0%nat ∧ attempt st = 0
      ∧ installed_successfully st = false
  end.
Proof.
  assert (ok (initial_state w)) as Hok0 by (split; [done | apply sound_nil]).
  unfold seed. rewrite call_fetch_eq.
  destruct (fetch_func main dir (world (initial_state w))) as [[p|e] w1];
    simpl.
  2: { split_and!; try done; [by apply (ok_fetch _ _ _ _ Hok0)|].
       apply coherent_propagate. }
  destruct p as [path|].
  2: { split_and!; try done. by apply (ok_fetch _ _ _ _ Hok0). }
  destruct (is_empty path) eqn:Hp.
  { split_and!; try done. by apply (ok_fetch _ _ _ _ Hok0). }
  pose proof (ok_add main (Some path) w1 _ Hok0) as Hok2.
  simpl in Hok2. rewrite Hp in Hok2. specialize (Hok2 eq_refl).
  destruct (extract_dependencies_from_whl path (disk w1)) as [[deps| |s] d].
  - destruct (fetch_initial dir (iter deps) _) as [st4 oe] eqn:F.
    apply fetch_initial_inv in F as (Ha & Hi & Hn & Hok). simpl in *.
    destruct oe; split_and!; try done; try (by apply Hok).
    apply coherent_propagate.
  - split_and!; try done; try apply Hok2. apply (coherent_propagate _ _).
  - split_and!; try done; try apply Hok2. apply (coherent_propagate _ _).
Qed.

(** A branch that leaves the loop with the flag still false. *)
Lemma leave_failed (x : Exit) st (bound : nat) :
  ok st → installed_successfully st = false →
  (installs (log st) ≤ bound)%nat →
  x ≠ Installed → x ≠ Propagated →
  ok (final (leave x st))
  ∧ (installs (log (final (leave x st))) ≤ bound)%nat
  ∧ coherent (leave x st)
  ∧ (exit (leave x st) = Installed → succeeded (log (final (leave x st)))).
Proof.
  intros Hok Hi Hb Hx1 Hx2. split_and!; try done.
  unfold coherent. simpl. rewrite Hi. by destruct x.
Qed.

(** An exception inside an attempt: the flag is still false there. *)
Lemma except_failed (e : Exn) st (bound : nat) :
  ok st → installed_successfully st = false →
  (installs (log st) ≤ bound)%nat →
  ok (final (except e st))
  ∧ (installs (log (final (except e st))) ≤ bound)%nat
  ∧ coherent (except e st)
  ∧ (exit (except e st) = Installed → succeeded (log (final (except e st)))).
Proof.
  intros Hok Hi Hb.
  destruct e; [by apply leave_failed | by apply leave_failed |].
  split_and!; try done. apply coherent_propagate.
Qed.

(** The loop returns, with enough fuel, after at most
    [max_retries - attempt] further install invocations. *)
Lemma retry_loop_spec (main dir : string) (max_retries : Z) (fuel : nat) st :
  (Z.to_nat (max_retries - attempt st) ≤ fuel)%nat →
  ok st →
  (installed_successfully st = true → succeeded (log st)) →
  ∃ run, retry_loop main dir max_retries fuel st = Some run
    ∧ ok (final run)
    ∧ (installs (log (final run))
       ≤ installs (log st) + Z.to_nat (max_retries - attempt st))%nat
    ∧ coherent run
    ∧ (exit run = Installed → succeeded (log (final run))).
Proof.
  revert st. induction fuel as [|fuel IH]; intros st Hfuel Hok Hsucc.
  - exists (leave (if installed_successfully st then Installed
                   else MaxAttemptsExceeded) st).
    assert (negb (installed_successfully st)
            && (attempt st <? max_retries) = false) as Hc.
    { destruct (installed_successfully st); [done|]. simpl.
      apply Z.ltb_ge. lia. }
    simpl. rewrite Hc. split; [done|]. split; [done|]. split; [simpl; lia|].
    unfold coherent. simpl.
    destruct (installed_successfully st); split; auto; done.
  - simpl.
    destruct (negb (installed_successfully st)
              && (attempt st <? max_retries)) eqn:Hc.
    2: { eexists. split; [done|]. split; [done|]. split; [simpl; lia|].
         unfold coherent. simpl.
         destruct (installed_successfully st); split; auto; done. }
    apply andb_prop in Hc as [Hi%negb_true_iff Hlt%Z.ltb_lt].
    destruct (subprocess_run (command main dir) (world st)) as [r w].
    set (st2 := record (EvPip r) w (next_attempt st)).
    assert (ok st2) as Hok2 by by apply ok_pip.
    assert (installs (log st2) = S (installs (log st))) as Hn2.
    { unfold st2. simpl. count. }
    assert (Z.to_nat (max_retries - attempt st)
            = S (Z.to_nat (max_retries - (attempt st + 1)))) as Hm by lia.
    assert (∀ x, x ≠ Installed → x ≠ Propagated →
      ∃ run, Some (leave x st2) = Some run ∧ ok (final run)
        ∧ (installs (log (final run))
           ≤ installs (log st) + Z.to_nat (max_retries - attempt st))%nat
        ∧ coherent run
        ∧ (exit run = Installed → succeeded (log (final run)))) as Hleave.
    { intros x Hx1 Hx2. eexists. split; [done|].
      apply leave_failed; try done. lia. }
    destruct r as [rc out err|e].
    2: { eexists. split; [done|]. apply except_failed; try done. lia. }
    destruct (rc =? 0) eqn:Hrc.
    { apply Z.eqb_eq in Hrc as ->.
      destruct (IH (set_installed st2)) as (run & -> & ? & Hb & ? & ?).
      - simpl. lia.
      - done.
      - intros _. exists out, err. unfold st2. simpl. apply last_snoc.
      - exists run. split; [done|]. split; [done|]. split; [|done].
        change (log (set_installed st2)) with (log st2) in Hb.
        change (attempt (set_installed st2)) with (attempt st + 1) in Hb.
        lia. }
    case_decide; [by apply Hleave|].
    case_decide; [by apply Hleave|].
    destruct (fetch_missing dir _ 0 st2) as [[st3 c] oe] eqn:F.
    apply fetch_missing_inv in F as (Ha3 & Hi3 & Hn3 & Hok3).
    assert (∀ x, x ≠ Installed → x ≠ Propagated →
      ∃ run, Some (leave x st3) = Some run ∧ ok (final run)
        ∧ (installs (log (final run))
           ≤ installs (log st) + Z.to_nat (max_retries - attempt st))%nat
        ∧ coherent run
        ∧ (exit run = Installed → succeeded (log (final run)))) as Hleave3.
    { intros x Hx1 Hx2. eexists. split; [done|].
      apply leave_failed; try done; [by apply Hok3 | by rewrite Hi3 | lia]. }
    destruct oe as [e|].
    { eexists. split; [done|].
      apply except_failed; [by apply Hok3 | by rewrite Hi3 | lia]. }
    destruct ((c =? 0) && (0 <? Z.of_nat (size _))); [by apply Hleave3|].
    destruct (IH st3) as (run & -> & ? & Hb & ? & ?).
    + rewrite Ha3. simpl. lia.
    + by apply Hok3.
    + rewrite Hi3. simpl. congruence.
    + exists run. split; [done|]. split; [done|]. split; [|done].
      rewrite Ha3 in Hb. simpl in Hb. lia.
Qed.

(** Fuel beyond what the loop needs changes nothing. *)
Lemma retry_loop_more_fuel (main dir : string) (max_retries : Z)
  (fuel fuel' : nat) st (run : Run E) :
  retry_loop main dir max_retries fuel st = Some run →
  (fuel ≤ fuel')%nat →
  retry_loop main dir max_retries fuel' st = Some run.
Proof.
  revert fuel' st. induction fuel as [|fuel IH]; intros fuel' st.
  - simpl.
    destruct (negb (installed_successfully st)
              && (attempt st <? max_retries)) eqn:Hc; [done|].
    intros Hr _. destruct fuel'; simpl; by rewrite Hc.
  - intros Hr Hle. destruct fuel' as [|fuel']; [lia|].
    simpl in *.
    destruct (negb (installed_successfully st)
              && (attempt st <? max_retries)); [|done].
    destruct (subprocess_run (command main dir) (world st)) as [r w].
    destruct r as [rc out err|e]; [|done].
    destruct (rc =? 0); [apply IH; [done | lia]|].
    case_decide; [done|]. case_decide; [done|].
    destruct (fetch_missing dir _ 0 _) as [[st3 c] oe].
    destruct oe as [e|]; [done|].
    destruct ((c =? 0) && _); [done|]. apply IH; [done | lia].
Qed.

Lemma run_with_more_fuel (main dir : string) (max_retries : Z)
  (w : World E) (fuel : nat) (run : Run E) :
  install_packages_locally main dir max_retries w = Some run →
  (Z.to_nat max_retries ≤ fuel)%nat →
  run_with_fuel fuel main dir max_retries w = Some run.
Proof.
  unfold install_packages_locally, run_with_fuel.
  destruct (seed main dir w) as [r|st]; [done|].
  apply retry_loop_more_fuel.
Qed.

(** Every run returns a [Run]; the invariants hold at its end. *)
Lemma run_spec (main dir : string) (max_retries : Z) (w : World E) :
  ∃ run, install_packages_locally main dir max_retries w = Some run
    ∧ ok (final run)
    ∧ (installs (log (final run)) ≤ Z.to_nat max_retries)%nat
    ∧ coherent run
    ∧ (exit run = Installed → succeeded (log (final run))).
Proof.
  unfold install_packages_locally, run_with_fuel.
  pose proof (seed_inv main dir w) as Hs.
  destruct (seed main dir w) as [run|st].
  - destruct Hs as (? & Hn & ? & ?). exists run.
    split_and!; try done. lia.
  - destruct Hs as (? & Hn & Ha & Hi).
    destruct (retry_loop_spec main dir max_retries (Z.to_nat max_retries) st)
      as (run & -> & ? & Hb & ? & ?).
    + rewrite Ha. lia.
    + done.
    + congruence.
    + exists run. split_and!; try done. rewrite Ha, Hn in Hb.
      replace (max_retries - 0) with max_retries in Hb by lia. lia.
Qed.

(** What the download loop of an attempt does to the set: the events it
    appends are fetches of the given names, and a name is added exactly
    when a fetch of it returned a path. *)
Lemma fetch_missing_adds (dir : string) (deps : list string) (c : Z) st
  st' (c' : Z) (oe : option Exn) :
  fetch_missing dir deps c st = (st', c', oe) →
  ∃ evs, log st' = log st ++ evs
    ∧ downloaded_packages st' = downloaded_packages st ∪ adds evs
    ∧ (∀ n, n ∈ adds evs ↔ fetched n evs)
    ∧ (∀ n r, EvFetch n r ∈ evs → n ∈ deps)
    ∧ (oe = None → ∀ n, n ∈ deps → ∃ r, EvFetch n r ∈ evs).
Proof.
  revert c st. induction deps as [|dep rest IH]; intros c st; simpl.
  - intros [= <- _ <-]. exists []. split_and!.
    + by rewrite (right_id_L [] (++)).
    + by rewrite adds_nil, (right_id_L ∅ (∪)).
    + intros n. split; [by intros ?%not_elem_of_empty|].
      by intros (p & ?%elem_of_nil & _).
    + by intros n r ?%elem_of_nil.
    + by intros _ n ?%elem_of_nil.
  - rewrite call_fetch_eq.
    destruct (fetch_func dep dir (world st)) as [[p|e] w]; simpl.
    + destruct (truthy p) eqn:Hp.
      * intros (evs & Hl & Hd & Ha & Hf & Hall)%IH. simpl in *.
        destruct p as [p|]; [|done]. simpl in Hp.
        apply negb_true_iff in Hp.
        exists (EvFetch dep (FetchReturns (Some p)) :: EvAdd dep :: evs).
        split_and!.
        -- rewrite Hl, <- !(assoc_L (++)). done.
        -- rewrite Hd, adds_cons_fetch, adds_cons_add.
           by rewrite (assoc_L (∪)).
        -- intros n. rewrite adds_cons_fetch, adds_cons_add.
           rewrite elem_of_union, elem_of_singleton, Ha. split.
           ++ intros [->|(q & Hin & Hq)].
              ** exists p. split; [left | done].
              ** exists q. split; [by do 2 right | done].
           ++ intros (q & Hin & Hq).
              apply elem_of_cons in Hin as [[= -> _]|Hin]; [by left|].
              apply elem_of_cons in Hin as [[=]|Hin].
              right. by exists q.
        -- intros n r [[= -> _]|Hin]%elem_of_cons; [left|].
           apply elem_of_cons in Hin as [[=]|Hin]. right. by eapply Hf.
        -- intros Hoe n [->|Hin]%elem_of_cons.
           ++ eexists. left.
           ++ destruct (Hall Hoe n Hin) as [r Hr]. exists r. by do 2 right.
      * intros (evs & Hl & Hd & Ha & Hf & Hall)%IH. simpl in *.
        exists (EvFetch dep (FetchReturns p) :: evs). split_and!.
        -- rewrite Hl, <- !(assoc_L (++)). done.
        -- by rewrite Hd.
        -- intros n. rewrite adds_cons_fetch, Ha. split.
           ++ intros (q & Hin & Hq). exists q. split; [by right | done].
           ++ intros (q & Hin & Hq).
              apply elem_of_cons in Hin as [[= _ <-]|Hin].
              ** simpl in Hp. by rewrite Hq in Hp.
              ** by exists q.
        -- intros n r [[= -> _]|Hin]%elem_of_cons; [left|].
           right. by eapply Hf.
        -- intros Hoe n [->|Hin]%elem_of_cons.
           ++ eexists. left.
           ++ destruct (Hall Hoe n Hin) as [r Hr]. exists r. by right.
    + intros [= <- _ <-]. simpl. exists [EvFetch dep (FetchRaises e)].
      split_and!; try done.
      * by rewrite adds_cons_fetch, adds_nil, (right_id_L ∅ (∪)).
      * intros n. split; [by intros ?%not_elem_of_empty|].
        by intros (q & [=]%list_elem_of_singleton & _).
      * intros n r [= -> _]%list_elem_of_singleton. left.
Qed.

Lemma elem_of_iter (s : gset string) (n : string) : n ∈ iter s ↔ n ∈ s.
Proof. by rewrite (iter_perm s), elem_of_elements. Qed.

(** What the download loop of an attempt records.  The names of
    [new = parsed − DownloadedSet] are fetched one after the other (all of
    them unless a fetch raises), nothing else is fetched, and a name is
    added to the set exactly when a fetch of it returned a path: a name
    whose fetch reported absence is not recorded. *)
Lemma fetch_missing_records_fetched (download_dir : string)
  (new : gset string) st :
  ∃ st' count raised evs,
    fetch_missing download_dir (iter new) 0 st = (st', count, raised)
    ∧ log st' = log st ++ evs
    ∧ (raised = None → ∀ n, n ∈ new → ∃ r, EvFetch n r ∈ evs)
    ∧ (∀ n r, EvFetch n r ∈ evs → n ∈ new)
    ∧ (∀ n, n ∈ downloaded_packages st' ↔
            n ∈ downloaded_packages st ∨ fetched n evs).
Proof.
  destruct (fetch_missing download_dir (iter new) 0 st)
    as [[st' count] raised] eqn:F.
  apply fetch_missing_adds in F as (evs & Hl & Hd & Ha & Hf & Hall).
  exists st', count, raised, evs. split_and!; try done.
  - intros Hr n Hn%elem_of_iter. by apply Hall.
  - intros n r Hin. by apply elem_of_iter, (Hf n r).
  - intros n. by rewrite Hd, elem_of_union, Ha.
Qed.

Lemma succeeded_exited_zero (l : list Event) : succeeded l → exited_zero l.
Proof.
  intros (out & err & [l' ->]%last_Some). exists out, err.
  apply elem_of_app. right. by left.
Qed.

Lemma fetch_missing_pips (dir : string) (deps : list string) (c : Z) st
  st' (c' : Z) (oe : option Exn) (r : PipResult) :
  fetch_missing dir deps c st = (st', c', oe) →
  EvPip r ∈ log st' → EvPip r ∈ log st.
Proof.
  revert c st. induction deps as [|dep rest IH]; intros c st; simpl.
  - by intros [= <- _ _].
  - rewrite call_fetch_eq.
    destruct (fetch_func dep dir (world st)) as [[p|e] w]; simpl.
    + destruct (truthy p).
      * intros F Hr. specialize (IH _ _ F Hr). simpl in IH.
        by eapply pip_snoc_fetch, pip_snoc_add.
      * intros F Hr. specialize (IH _ _ F Hr). simpl in IH.
        by eapply pip_snoc_fetch.
    + intros [= <- _ _]. simpl. apply pip_snoc_fetch.
Qed.

Lemma fetch_initial_pips (dir : string) (deps : list string) st st'
  (oe : option Exn) (r : PipResult) :
  fetch_initial dir deps st = (st', oe) →
  EvPip r ∈ log st' → EvPip r ∈ log st.
Proof.
  revert st. induction deps as [|dep rest IH]; intros st; simpl.
  - by intros [= <- _].
  - case_decide; [apply IH|]. rewrite call_fetch_eq.
    destruct (fetch_func dep dir (world st)) as [[p|e] w]; simpl.
    + destruct (truthy p).
      * intros F Hr. specialize (IH _ F Hr). simpl in IH.
        by eapply pip_snoc_fetch, pip_snoc_add.
      * intros F Hr. specialize (IH _ F Hr). simpl in IH.
        by eapply pip_snoc_fetch.
    + intros [= <- _]. simpl. apply pip_snoc_fetch.
Qed.

(** The seed phase makes no install invocation. *)
Lemma seed_no_pip (main dir : string) (w : World E) (r : PipResult) :
  match seed main dir w with
  | inl run => EvPip r ∉ log (final run)
  | inr st => EvPip r ∉ log st
  end.
Proof.
  assert (∀ q, EvPip r ∉ [EvFetch main q]) as Hp1.
  { by intros q [=]%list_elem_of_singleton. }
  unfold seed. rewrite call_fetch_eq.
  destruct (fetch_func main dir (world (initial_state w))) as [[p|e] w1];
    simpl; [|apply Hp1].
  destruct p as [path|]; [|apply Hp1].
  destruct (is_empty path); [apply Hp1|].
  assert (EvPip r ∉ [EvFetch main (FetchReturns (Some path)); EvAdd main])
    as Hp2.
  { intros [[=]|[[=]|[]%elem_of_nil]%elem_of_cons]%elem_of_cons. }
  destruct (extract_dependencies_from_whl path (disk w1)) as [[deps| |s] d];
    [|done|done].
  destruct (fetch_initial dir (iter deps) _) as [st4 oe] eqn:F.
  assert (EvPip r ∉ log st4) as Hp4.
  { intros Hr. by apply (fetch_initial_pips _ _ _ _ _ _ F) in Hr. }
  by destruct oe.
Qed.

(** An install invocation that exited with status 0 makes the loop return
    [True]: the flag is set right after it, and nothing resets it. *)
Lemma retry_loop_exited_zero (main dir : string) (max_retries : Z)
  (fuel : nat) st (run : Run E) :
  retry_loop main dir max_retries fuel st = Some run →
  (exited_zero (log st) → installed_successfully st = true) →
  exited_zero (log (final run)) → result run = Returned true.
Proof.
  revert st. induction fuel as [|fuel IH]; intros st Hrun Hz.
  all: simpl in Hrun;
    destruct (negb (installed_successfully st)
              && (attempt st <? max_retries)) eqn:Hc.
  1: done.
  1,3: injection Hrun as <-; simpl; by intros ->%Hz.
  apply andb_prop in Hc as [Hi%negb_true_iff _].
  assert (¬ exited_zero (log st)) as Hnz by (intros ?%Hz; congruence).
  destruct (subprocess_run (command main dir) (world st)) as [r w].
  set (st2 := record (EvPip r) w (next_attempt st)) in *.
  destruct r as [rc out err|e].
  2: { injection Hrun as <-. intros (o & e' & Hin). exfalso. apply Hnz.
       assert (final (except e st2) = st2) as Hf by by destruct e.
       rewrite Hf in Hin.
       apply elem_of_app in Hin as [?|[=]%list_elem_of_singleton].
       by exists o, e'. }
  destruct (rc =? 0) eqn:Hrc; [apply (IH _ Hrun); by intros _|].
  apply Z.eqb_neq in Hrc.
  assert (¬ exited_zero (log st2)) as Hnz2.
  { intros (o & e' & [?|[= <- _ _]%list_elem_of_singleton]%elem_of_app);
      [|done]. apply Hnz. by exists o, e'. }
  case_decide; [injection Hrun as <-; by intros ?%Hnz2|].
  case_decide; [injection Hrun as <-; by intros ?%Hnz2|].
  destruct (fetch_missing dir _ 0 st2) as [[st3 c] oe] eqn:F.
  assert (¬ exited_zero (log st3)) as Hnz3.
  { intros (o & e' & Hin). apply Hnz2. exists o, e'.
    by eapply fetch_missing_pips. }
  destruct oe as [e|].
  { injection Hrun as <-.
    assert (final (except e st3) = st3) as -> by by destruct e.
    by intros ?%Hnz3. }
  destruct ((c =? 0) && _); [injection Hrun as <-; by intros ?%Hnz3|].
  apply (IH _ Hrun). by intros ?%Hnz3.
Qed.

(** C2, as the code has it.  Every run ends; what it hands back is a
    boolean, true exactly when an install invocation exited with status 0
    (which is then the last call of the run) and false on every other
    branch that returns, so the value tells success from failure and
    nothing more.  No value is handed back when an exception leaves the
    function. *)
Theorem C2_result_is_a_boolean (main_package_name download_dir : string)
  (max_retries : Z) (w : World E) :
  ∃ run,
    install_packages_locally main_package_name download_dir max_retries w
    = Some run
    ∧ (result run = Returned true ↔ exited_zero (log (final run)))
    ∧ (result run = Returned true → succeeded (log (final run)))
    ∧ (result run = Returned true ↔ exit run = Installed)
    ∧ (result run = Returned false ↔
       exit run ≠ Installed ∧ exit run ≠ Propagated)
    ∧ ((result run = Raised ∨ ∃ status, result run = Interrupted status)
       ↔ exit run = Propagated).
Proof.
  destruct (run_spec main_package_name download_dir max_retries w)
    as (run & Hrun & _ & _ & Hc & Hs).
  exists run. split; [done|]. unfold coherent in Hc.
  assert (result run = Returned true ↔ exit run = Installed) as Ht.
  { destruct (exit run); try (rewrite Hc; split; congruence).
    split; [|done]. intros Hr. destruct Hc as [Hc|[s Hc]]; congruence. }
  split_and!; [ | | done | | ].
  - split; [intros ?%Ht; by apply succeeded_exited_zero, Hs|].
    unfold install_packages_locally, run_with_fuel in Hrun.
    pose proof (seed_no_pip main_package_name download_dir w) as Hno.
    intros (out & err & Hin).
    destruct (seed main_package_name download_dir w) as [run0|st].
    + injection Hrun as <-. by destruct (Hno (PipExits 0 out err)).
    + eapply retry_loop_exited_zero; [done | | by exists out, err].
      intros (o & e & Hin'). by destruct (Hno (PipExits 0 o e)).
  - intros ?%Ht. by apply Hs.
  - destruct (exit run); try (rewrite Hc; intuition congruence).
    destruct Hc as [Hc|[s Hc]]; rewrite Hc; intuition congruence.
  - destruct (exit run); try (rewrite Hc; split; [intros [?|[? ?]]|]; congruence).
    done.
Qed.

(** C3.  For a positive bound, every run ends: the loop stops by itself,
    however much fuel the model is given beyond [max_retries] turns; and
    the run has invoked the install capability at most [max_retries + 1]
    times (indeed at most [max_retries] times). *)
Theorem C3_terminates_within_bound (main_package_name download_dir : string)
  (max_retries : Z) (w : World E) :
  0 < max_retries →
  ∃ run,
    install_packages_locally main_package_name download_dir max_retries w
    = Some run
    ∧ (∀ fuel, (Z.to_nat max_retries ≤ fuel)%nat →
         run_with_fuel fuel main_package_name download_dir max_retries w
         = Some run)
    ∧ Z.of_nat (installs (log (final run))) ≤ max_retries
    ∧ Z.of_nat (installs (log (final run))) ≤ max_retries + 1.
Proof.
  intros Hpos.
  destruct (run_spec main_package_name download_dir max_retries w)
    as (run & Hrun & _ & Hb & _).
  exists run. split; [done|]. split; [|lia].
  intros fuel. by apply run_with_more_fuel.
Qed.

(** C5.  When the fetch of the main package reports absence, the run
    returns false through the branch of the unavailable main package; the
    only call made to the outside is that fetch: no install invocation,
    no retry. *)
Theorem C5_main_package_absent (main_package_name download_dir : string)
  (max_retries : Z) (w w' : World E) (path : option string) :
  fetch_func main_package_name download_dir w = (FetchReturns path, w') →
  truthy path = false →
  ∃ run,
    install_packages_locally main_package_name download_dir max_retries w
    = Some run
    ∧ result run = Returned false
    ∧ exit run = MainPackageUnavailable
    ∧ log (final run) = [EvFetch main_package_name (FetchReturns path)]
    ∧ installs (log (final run)) = 0%nat.
Proof.
  intros Hf Hp. unfold install_packages_locally, run_with_fuel, seed.
  rewrite call_fetch_eq. simpl. rewrite Hf. simpl.
  destruct path as [p|]; simpl in Hp.
  - apply negb_false_iff in Hp. rewrite Hp. by eexists.
  - by eexists.
Qed.

(** C10.  Every run ends with [downloaded_packages] equal to the names
    added along the log.  At every point of the run (every prefix [pre] of
    the log, where the set is [adds pre]) a name in the set is the main
    package or a name of which an earlier fetch returned a path; no
    addition follows a fetch that reported absence, and every addition
    comes right after a fetch of that name that returned a path. *)
Theorem C10_downloaded_names_were_fetched
  (main_package_name download_dir : string) (max_retries : Z)
  (w : World E) :
  ∃ run,
    install_packages_locally main_package_name download_dir max_retries w
    = Some run
    ∧ downloaded_packages (final run) = adds (log (final run))
    ∧ (∀ pre post n,
         log (final run) = pre ++ post → n ∈ adds pre →
         n = main_package_name ∨ fetched n pre)
    ∧ (∀ pre post n path,
         log (final run)
         = pre ++ EvFetch n (FetchReturns path) :: EvAdd n :: post →
         truthy path = true)
    ∧ (∀ pre post n,
         log (final run) = pre ++ EvAdd n :: post →
         ∃ pre' p, pre = pre' ++ [EvFetch n (FetchReturns (Some p))]
                   ∧ is_empty p = false).
Proof.
  destruct (run_spec main_package_name download_dir max_retries w)
    as (run & Hrun & [Hd Hs] & _).
  exists run. split_and!; try done.
  - intros pre post n Hl Hn. right. by eapply sound_fetched.
  - intros pre post n path Hl. by eapply sound_no_add_after_absence.
Qed.

(** The step of the loop that stalls: the install invocation fails, the
    parser names something, and every name it gives is already in
    [downloaded_packages].  The loop is left at once, with no fetch and no
    further install invocation. *)
Lemma stalled_step (main dir : string) (max_retries : Z) (fuel : nat) st
  (returncode : Z) (stdout stderr : string) (w : World E) :
  installed_successfully st = false →
  attempt st < max_retries →
  subprocess_run (command main dir) (world st)
  = (PipExits returncode stdout stderr, w) →
  returncode ≠ 0 →
  parse_pip_error_for_missing_deps stderr ≠ ∅ →
  parse_pip_error_for_missing_deps stderr ⊆ downloaded_packages st →
  retry_loop main dir max_retries (S fuel) st
  = Some (leave Stalled
            (record (EvPip (PipExits returncode stdout stderr)) w
               (next_attempt st))).
Proof.
  intros Hi Hlt Hpip Hrc Hne Hsub. simpl.
  rewrite Hi. apply Z.ltb_lt in Hlt as ->. simpl. rewrite Hpip.
  apply Z.eqb_neq in Hrc as ->.
  case_decide; [done|]. case_decide; [done|].
  exfalso. apply H0. apply set_eq. intros n.
  rewrite elem_of_difference. split; [|by intros ?%not_elem_of_empty].
  intros [Hin Hout]. destruct Hout. by apply Hsub.
Qed.

Section AlwaysFetches.
Hypothesis Hfetch : always_fetches.

Lemma fetch_missing_all (dir : string) (deps : list string) (c : Z) st :
  ∃ st', fetch_missing dir deps c st
         = (st', c + Z.of_nat (length deps), None)
    ∧ attempt st' = attempt st
    ∧ installed_successfully st' = installed_successfully st
    ∧ installs (log st') = installs (log st)
    ∧ downloaded_packages st' = downloaded_packages st ∪ list_to_set deps.
Proof.
  revert c st. induction deps as [|dep rest IH]; intros c st.
  - exists st. simpl. split_and!; try done.
    + do 2 f_equal. lia.
    + by rewrite (right_id_L ∅ (∪)).
  - simpl fetch_missing. rewrite call_fetch_eq.
    destruct (Hfetch dep dir (world st)) as (path & w' & -> & Hp).
    simpl. rewrite Hp. simpl.
    destruct (IH (c + 1)
                (add_downloaded dep
                   (record (EvFetch dep (FetchReturns (Some path))) w' st)))
      as (st' & -> & Ha & Hi & Hn & Hd).
    exists st'. split_and!; try done.
    + do 2 f_equal. simpl length. lia.
    + rewrite Hn. simpl. count.
    + rewrite Hd. simpl. by rewrite (assoc_L (∪)).
Qed.

Lemma fetch_initial_all (dir : string) (deps : list string) st :
  ∃ st', fetch_initial dir deps st = (st', None).
Proof.
  revert st. induction deps as [|dep rest IH]; intros st; simpl.
  - by exists st.
  - case_decide; [apply IH|]. rewrite call_fetch_eq.
    destruct (Hfetch dep dir (world st)) as (path & w' & -> & Hp).
    simpl. rewrite Hp. simpl. apply IH.
Qed.

(** With such a fetch the seed phase reaches the loop. *)
Lemma seed_enters_loop (main dir : string) (w : World E) :
  main_wheel_extracts main dir w → ∃ st, seed main dir w = inr st.
Proof.
  intros Hextract. unfold seed. rewrite call_fetch_eq.
  destruct (Hfetch main dir w) as (path & w' & Hf & Hp).
  specialize (Hextract path w' Hf). simpl. rewrite Hf. simpl. rewrite Hp.
  pose proof (extract_never_interrupted path (disk w')) as Hnever.
  destruct (extract_dependencies_from_whl path (disk w'))
    as [[deps| |s] d']; [|done|by destruct (Hnever s)].
  destruct (fetch_initial_all dir (iter deps)
              (set_world (with_disk d' w')
                 (add_downloaded main
                    (record (EvFetch main (FetchReturns (Some path))) w'
                       (initial_state w))))) as [st4 ->].
  by exists st4.
Qed.

(** When moreover the installer fails every time naming the same missing
    package, the loop stalls in its first or second turn. *)
Lemma stalls_by_second_attempt (main dir : string) (max_retries : Z)
  (fuel : nat) (x : string) st :
  always_misses x →
  installed_successfully st = false →
  attempt st + 2 ≤ max_retries →
  ∃ run, retry_loop main dir max_retries (S (S fuel)) st = Some run
    ∧ exit run = Stalled
    ∧ result run = Returned false
    ∧ (installs (log st) + 1 ≤ installs (log (final run))
       ≤ installs (log st) + 2)%nat.
Proof.
  intros Hpip Hi Hmax.
  destruct (Hpip (command main dir) (world st))
    as (rc & out & err & w & Hrun & Hrc & Hparse).
  assert (parse_pip_error_for_missing_deps err ≠ ∅) as Hne.
  { rewrite Hparse. intros Hx. apply (not_elem_of_empty (C:=gset string) x).
    rewrite <- Hx. by apply elem_of_singleton. }
  destruct (decide (x ∈ downloaded_packages st)) as [Hin|Hout].
  - rewrite (stalled_step main dir max_retries (S fuel) st rc out err w);
      try done; [|lia|].
    + eexists. split; [done|]. simpl. rewrite Hi.
      split_and!; try done; count.
    + rewrite Hparse. by intros n ->%elem_of_singleton.
  - set (st2 := record (EvPip (PipExits rc out err)) w (next_attempt st)).
    set (new := parse_pip_error_for_missing_deps err
                ∖ downloaded_packages st).
    assert (new = {[ x ]}) as Hnew.
    { unfold new. rewrite Hparse. apply set_eq. intros n.
      rewrite elem_of_difference, elem_of_singleton.
      split; [by intros [? _] | by intros ->]. }
    destruct (fetch_missing_all dir (iter new) 0 st2)
      as (st3 & F & Ha & Hi3 & Hn & Hd).
    assert (0 < length (iter new))%nat as Hlen.
    { destruct (iter new) as [|? ?] eqn:Ei; [|simpl; lia].
      assert (x ∈ iter new) as Hx
        by (apply elem_of_iter; rewrite Hnew; by apply elem_of_singleton).
      rewrite Ei in Hx. by apply elem_of_nil in Hx. }
    destruct (Hpip (command main dir) (world st3))
      as (rc' & out' & err' & w3 & Hrun' & Hrc' & Hparse').
    assert (retry_loop main dir max_retries (S (S fuel)) st
            = retry_loop main dir max_retries (S fuel) st3) as ->.
    { simpl retry_loop at 1. rewrite Hi.
      assert ((attempt st <? max_retries) = true) as ->
        by (apply Z.ltb_lt; lia).
      simpl negb. simpl andb. cbv iota. rewrite Hrun.
      apply Z.eqb_neq in Hrc as ->.
      case_decide; [done|]. fold new. case_decide.
      { exfalso. rewrite Hnew in H0.
        apply (not_elem_of_empty (C:=gset string) x).
        rewrite <- H0. by apply elem_of_singleton. }
      fold st2. rewrite F.
      assert ((0 + Z.of_nat (length (iter new)) =? 0) = false) as ->
        by (apply Z.eqb_neq; lia).
      done. }
    rewrite (stalled_step main dir max_retries fuel st3 rc' out' err' w3);
      try done.
    + eexists. split; [done|]. simpl. rewrite Hi3. unfold st2. simpl.
      rewrite Hi. split_and!; try done.
      * rewrite installs_app, Hn. unfold st2. simpl. count.
      * rewrite installs_app, Hn. unfold st2. simpl. count.
    + by rewrite Hi3.
    + rewrite Ha. unfold st2. simpl. lia.
    + rewrite Hparse'. intros Hx.
      apply (not_elem_of_empty (C:=gset string) x).
      rewrite <- Hx. by apply elem_of_singleton.
    + rewrite Hparse', Hd. intros n ->%elem_of_singleton.
      apply elem_of_union. right. apply elem_of_list_to_set, elem_of_iter.
      rewrite Hnew. by apply elem_of_singleton.
Qed.

End AlwaysFetches.


End Runs.

(** *** Concrete runs *)

(** C1 at the failing input.  pip reports good and ghost as missing in
    every attempt, and the fetch of ghost reports absence.  In the first
    attempt both names are new and both are fetched; good is recorded, ghost
    is not.  The second attempt selects ghost as a new target again and
    fetches it again; the run then ends because nothing was downloaded,
    with ghost still not in [downloaded_packages]. *)
Lemma C1_absent_name_is_fetched_again :
  ∃ run, run_scripted ["ghost"] two_missing "pkg" 5 = Some run
    ∧ ("ghost" ∉ downloaded_packages (final run))
    ∧ fetches_of "ghost" (log (final run))
      = [FetchReturns None; FetchReturns None]
    ∧ log (final run)
      = [EvFetch "pkg" (FetchReturns (Some "downloads/pkg.whl"));
         EvAdd "pkg";
         EvPip (PipExits 1 "" two_missing);
         EvFetch "good" (FetchReturns (Some "downloads/good.whl"));
         EvAdd "good";
         EvFetch "ghost" (FetchReturns None);
         EvPip (PipExits 1 "" two_missing);
         EvFetch "ghost" (FetchReturns None)].
Proof.
  eexists. split; [vm_compute; reflexivity|]. split_and!.
  - apply (bool_decide_unpack _). vm_compute. exact I.
  - vm_compute. reflexivity.
  - vm_compute. reflexivity.
Qed.

(** C2, as stated, fails: a run that ends because the main package is
    unavailable and a run that ends because the error text cannot be
    parsed hand back the same value, so no reading of the value gives the
    reason of both. *)
Lemma C2_two_failures_one_value :
  ∃ run_a run_b,
    run_scripted ["pkg"] "" "pkg" 5 = Some run_a
    ∧ run_scripted [] "boom" "pkg" 5 = Some run_b
    ∧ exit run_a = MainPackageUnavailable
    ∧ exit run_b = Unparseable
    ∧ result run_a = Returned false
    ∧ result run_b = result run_a
    ∧ ∀ reason_of : Outcome bool → Exit,
        ¬ (reason_of (result run_a) = exit run_a
           ∧ reason_of (result run_b) = exit run_b).
Proof.
  eexists _, _. split; [vm_compute; reflexivity|].
  split; [vm_compute; reflexivity|]. split_and!; try done.
  simpl. intros reason_of [Ha Hb]. congruence.
Qed.


Lemma C3_terminates_within_bound_witness :
  0 < 5
  ∧ ∃ run, run_scripted [] one_missing "pkg" 5 = Some run
      ∧ (∀ fuel, (Z.to_nat 5 ≤ fuel)%nat →
           run_with_fuel (caps := scripted [] one_missing) fuel
             "pkg" "downloads" 5 empty_world = Some run)
      ∧ Z.of_nat (installs (log (final run))) ≤ 5
      ∧ Z.of_nat (installs (log (final run))) ≤ 5 + 1.
Proof.
  split; [reflexivity|].
  exact (C3_terminates_within_bound (caps := scripted [] one_missing)
           "pkg" "downloads" 5 empty_world eq_refl).
Defined.


Lemma C5_main_package_absent_witness :
  truthy None = false
  ∧ ∃ run, run_scripted ["pkg"] one_missing "pkg" 5 = Some run
      ∧ result run = Returned false
      ∧ exit run = MainPackageUnavailable
      ∧ log (final run) = [EvFetch "pkg" (FetchReturns None)]
      ∧ installs (log (final run)) = 0%nat.
Proof.
  split; [reflexivity|].
  exact (C5_main_package_absent (caps := scripted ["pkg"] one_missing)
           "pkg" "downloads" 5 empty_world empty_world None
           eq_refl eq_refl).
Defined.

End InstallerFacts.

(** * Further properties *)

(** ** The failure parser *)

Module PipExtras.
Import Text PipErrors Spec LogSpec TextFacts PipFacts Scenarios.

Lemma group1_token (rest name : string) :
  group1 rest = Some name → is_token name.
Proof.
  intros [-> Hne]%group1_Some. split; [done | apply take_name_all].
Qed.

Lemma search_token (lit s name : string) :
  search lit s = Some name → is_token name.
Proof. intros (pre & rest & _ & G)%search_Some. by eapply group1_token. Qed.

(** X1.  Every name the parser returns is a token: it is not empty and
    holds only letters, digits, dots, underscores and hyphens (so no white
    space, no version specifier, no bracket). *)
Theorem parsed_names_are_tokens (error_output n : string) :
  n ∈ parse_pip_error_for_missing_deps error_output → is_token n.
Proof.
  intros (line & _ & [Hs|[_ Hs]])%parse_elem; by eapply search_token.
Qed.

Lemma parsed_names_are_tokens_witness :
  "needs-dep" ∈ parse_pip_error_for_missing_deps one_missing
  ∧ is_token "needs-dep".
Proof.
  assert ("needs-dep" ∈ parse_pip_error_for_missing_deps one_missing) as Hin.
  { apply (bool_decide_unpack _). vm_compute. exact I. }
  split; [exact Hin|].
  exact (parsed_names_are_tokens one_missing "needs-dep" Hin).
Defined.

Lemma scan_line_size (acc : gset string) (line : string) :
  (size (scan_line acc line) ≤ size acc + 1)%nat.
Proof.
  assert (∀ x : string, size (acc ∪ {[ x ]}) ≤ size acc + 1)%nat as Hadd.
  { intros x. rewrite size_union_alt.
    assert (size (({[ x ]} : gset string) ∖ acc) ≤ 1)%nat; [|lia].
    rewrite <- (size_singleton (C:=gset string) x).
    apply subseteq_size. intros y [? _]%elem_of_difference. done. }
  unfold scan_line.
  destruct (search pattern1 line); [apply Hadd|].
  destruct (search pattern2 line); [apply Hadd | lia].
Qed.

Lemma scan_lines_size (lines : list string) (acc : gset string) :
  (size (foldl scan_line acc lines) ≤ size acc + length lines)%nat.
Proof.
  revert acc. induction lines as [|l lines IH]; intros acc; simpl; [lia|].
  specialize (IH (scan_line acc l)).
  pose proof (scan_line_size acc l). lia.
Qed.

(** X2.  A line yields at most one name (only the first match on a line
    is taken, and the second pattern is skipped after the first): the
    parser returns at most as many names as the text has lines. *)
Theorem parse_at_most_one_name_per_line (error_output : string) :
  (size (parse_pip_error_for_missing_deps error_output)
   ≤ length (splitlines error_output))%nat.
Proof.
  unfold parse_pip_error_for_missing_deps.
  pose proof (scan_lines_size (splitlines error_output) ∅) as Hs.
  by rewrite size_empty in Hs.
Qed.

Lemma splitlines_nil (s : string) : splitlines s = [] → s = "".
Proof.
  destruct s as [|c rest]; [done|]. simpl.
  destruct (is_linebreak c); [done|].
  by destruct (splitlines rest).
Qed.

(** Lines of two texts joined by a newline: those of the first, perhaps an
    empty line, those of the second. *)
Lemma splitlines_join_bounded (b : string) (n : nat) (a : string) :
  (String.length a < n)%nat →
  ∃ pad, (pad = [] ∨ pad = [""])
    ∧ splitlines (a +:+ newline +:+ b) = splitlines a ++ pad ++ splitlines b
    ∧ (a = "" → pad = [""]).
Proof.
  revert a. induction n as [|n IH]; intros a Hlen; [lia|].
  destruct a as [|c rest].
  { exists [""]. split; [by right|]. split; [|done]. reflexivity. }
  rewrite append_cons. simpl in Hlen. simpl splitlines.
  destruct (is_linebreak c) eqn:Hb.
  - destruct (code c =? 13)%N eqn:Hcr.
    + destruct rest as [|d rest'].
      * exists []. split; [by left|]. split; [|done]. reflexivity.
      * rewrite append_cons. destruct (code d =? 10)%N.
        -- destruct (IH rest') as (pad & Hpad & -> & _);
             [simpl in Hlen; lia|].
           exists pad. split; [done|]. split; [|done]. reflexivity.
        -- rewrite <- append_cons.
           destruct (IH (String d rest')) as (pad & Hpad & -> & _); [lia|].
           exists pad. split; [done|]. split; [|done]. reflexivity.
    + destruct (IH rest) as (pad & Hpad & -> & _); [lia|].
      exists pad. split; [done|]. split; [|done]. reflexivity.
  - destruct (IH rest) as (pad & Hpad & -> & Hnil); [lia|].
    destruct (splitlines rest) as [|l ls] eqn:Hr.
    + apply splitlines_nil in Hr as ->. rewrite (Hnil eq_refl).
      exists []. split; [by left|]. split; [|done]. reflexivity.
    + exists pad. split; [done|]. split; [|done]. reflexivity.
Qed.

Lemma splitlines_join (a b : string) :
  ∃ pad, (pad = [] ∨ pad = [""])
    ∧ splitlines (a +:+ newline +:+ b) = splitlines a ++ pad ++ splitlines b.
Proof.
  destruct (splitlines_join_bounded b (S (String.length a)) a)
    as (pad & ? & ? & _); [lia|]. by exists pad.
Qed.

(** X3.  Parsing composes over lines: the names found in two error texts
    joined by a newline are the names found in the one together with the
    names found in the other. *)
Theorem parse_join (a b : string) :
  parse_pip_error_for_missing_deps (a +:+ newline +:+ b)
  = parse_pip_error_for_missing_deps a ∪ parse_pip_error_for_missing_deps b.
Proof.
  destruct (splitlines_join a b) as (pad & Hpad & Hl).
  apply set_eq. intros n. rewrite elem_of_union, !parse_elem, Hl. split.
  - intros (line & Hin & Hc).
    apply elem_of_app in Hin as [Hin|Hin]; [left; by exists line|].
    apply elem_of_app in Hin as [Hin|Hin]; [|right; by exists line].
    destruct Hpad as [-> | ->]; [by apply elem_of_nil in Hin|].
    apply list_elem_of_singleton in Hin as ->.
    by destruct Hc as [Hc|[_ Hc]].
  - intros [(line & Hin & Hc)|(line & Hin & Hc)]; exists line;
      (split; [|done]); rewrite !elem_of_app; auto.
Qed.

End PipExtras.

(** ** The metadata extractor *)

Module WheelExtras.
Import Text Wheel Spec LogSpec TextFacts WheelFacts PipExtras Scenarios.

(** X4.  The extractor cleans up after itself.  With no regular file
    above the scratch directory [<whl_path>_extracted_temp]: when the
    function returns, the scratch directory and everything below it are
    gone (also files that were there before the call), the directories
    above it are there (those that were missing have been made and stay),
    and every other path of the disk is as before; when it raises, the
    disk is unchanged. *)
Theorem extract_leaves_no_scratch (whl_path : string) (d : Disk) :
  (∀ a c, a ∈ ancestors (scratch whl_path) → d !! a ≠ Some (File c)) →
  match (extract_dependencies_from_whl whl_path d).1 with
  | Returned _ =>
      ∀ q, (extract_dependencies_from_whl whl_path d).2 !! q
           = if under (scratch whl_path) q then None
             else if bool_decide (q ∈ ancestors (scratch whl_path))
                  then Some Directory
                  else d !! q
  | Raised => (extract_dependencies_from_whl whl_path d).2 = d
  | Interrupted _ => False
  end.
Proof.
  intros Habove.
  destruct (makedirs (scratch whl_path) d) as [d1|] eqn:Hmk.
  - destruct (extract_made whl_path d d1 Hmk) as (d' & -> & Hd').
    simpl. intros q. rewrite Hd'.
    destruct (under (scratch whl_path) q) eqn:Hq; [done|].
    apply makedirs_Some in Hmk as [-> _].
    assert (q ≠ scratch whl_path) as Hne
      by (intros ->; by rewrite under_self in Hq).
    case_bool_decide as Hin.
    + apply elem_of_app in Hin as [Hin|Hin%list_elem_of_singleton];
        [|done]. by rewrite bool_decide_true.
    + rewrite bool_decide_false; [done|].
      intros Hin'. apply Hin, elem_of_app. by left.
  - pose proof Hmk as Hmk'. rewrite makedirs_scratch in Hmk'.
    apply mkdirs_None in Hmk' as (a & c & Hin & Hc).
    apply elem_of_app in Hin as [Hin|Hin%list_elem_of_singleton].
    + by destruct (Habove a c Hin).
    + subst a. by rewrite (extract_scratch_occupied whl_path d c Hc).
Qed.

Lemma extract_leaves_no_scratch_witness :
  let d : Disk := {[ "lib/a.whl" := File (Some sample_wheel) ]} in
  (∀ a c, a ∈ ancestors (scratch "lib/a.whl") → d !! a ≠ Some (File c))
  ∧ match (extract_dependencies_from_whl "lib/a.whl" d).1 with
    | Returned _ =>
        ∀ q, (extract_dependencies_from_whl "lib/a.whl" d).2 !! q
             = if under (scratch "lib/a.whl") q then None
               else if bool_decide (q ∈ ancestors (scratch "lib/a.whl"))
                    then Some Directory
                    else d !! q
    | Raised => (extract_dependencies_from_whl "lib/a.whl" d).2 = d
    | Interrupted _ => False
    end.
Proof.
  intros d.
  assert (∀ a c, a ∈ ancestors (scratch "lib/a.whl") →
                 d !! a ≠ Some (File c)) as Habove.
  { intros a c Ha.
    change (ancestors (scratch "lib/a.whl")) with ["lib"] in Ha.
    apply list_elem_of_singleton in Ha as ->. unfold d.
    by rewrite lookup_singleton_ne. }
  split; [exact Habove|].
  exact (extract_leaves_no_scratch "lib/a.whl" d Habove).
Defined.

(** X5.  The extractor lets an exception reach its caller in exactly one
    situation: a regular file sits where its scratch directory should go
    (then [makedirs] fails, and [rmtree] in the [finally] clause fails
    again, unhandled).  A missing, unreadable or corrupt archive never
    makes it raise. *)
Theorem extract_raises_iff_scratch_occupied (whl_path : string) (d : Disk) :
  (extract_dependencies_from_whl whl_path d).1 = Raised
  ↔ ∃ zip, d !! scratch whl_path = Some (File zip).
Proof.
  split.
  - intros Hr. destruct (d !! scratch whl_path) as [[|zip]|] eqn:E; eauto.
    all: rewrite extract_scratch_free in Hr; [done|].
    all: intros zip; congruence.
  - intros [zip E]. by rewrite (extract_scratch_occupied whl_path d zip E).
Qed.

Lemma line_dependency_Some (line n : string) :
  line_dependency line = Some n ↔
  ∃ rest, line = requires_dist +:+ rest
          ∧ is_empty (take_name (lstrip rest)) = false
          ∧ n = take_name (lstrip rest).
Proof.
  unfold line_dependency, startswith, match_ws.
  destruct (strip_prefix requires_dist line) as [rest|] eqn:E.
  - apply strip_prefix_Some in E as ->. unfold group1.
    destruct (is_empty (take_name (lstrip rest))) eqn:Hn.
    + split; [done|]. intros (r & Hr%(inj _) & Hne & _). subst r.
      congruence.
    + rewrite strip_name by apply take_name_all. split.
      * intros [= <-]. by exists rest.
      * intros (r & Hr%(inj _) & _ & ->). by subst r.
  - split; [done|]. intros (r & -> & _). by rewrite strip_prefix_app in E.
Qed.

Lemma read_lines_elem (lines : list string) (acc : gset string)
  (n : string) :
  n ∈ foldl read_line acc lines ↔
  n ∈ acc ∨ ∃ line, line ∈ lines ∧ line_dependency line = Some n.
Proof.
  revert acc. induction lines as [|l lines IH]; intros acc; simpl.
  - split; [by left | by intros [?|(? & ?%elem_of_nil & _)]].
  - rewrite IH. unfold read_line.
    destruct (line_dependency l) as [m|] eqn:El.
    + rewrite elem_of_union, elem_of_singleton. split.
      * intros [[?| ->]|(line & ? & ?)]; [by left | |].
        -- right. exists l. split; [left | done].
        -- right. exists line. split; [by right | done].
      * intros [?|(line & [->|?]%elem_of_cons & Hl)]; [by left; left| |].
        -- left. right. congruence.
        -- right. by exists line.
    + split.
      * intros [?|(line & ? & ?)]; [by left|].
        right. exists line. split; [by right | done].
      * intros [?|(line & [->|?]%elem_of_cons & Hl)]; [by left| |].
        -- congruence.
        -- right. by exists line.
Qed.

Lemma find_metadata_nonempty (names : list string) (name : string) :
  find_metadata names = Some name → is_empty name = false.
Proof.
  intros [_ He]%List.find_some. by destruct name.
Qed.

(** Every name collected in the [with] block is declared by a line. *)
Lemma with_zip_elem (dir : string) (zip : Archive) (d : Disk) (n : string) :
  n ∈ (with_zip dir zip d).1.1 → ∃ line, line_dependency line = Some n.
Proof.
  unfold with_zip.
  destruct (find_metadata (namelist zip)) as [name|];
    [|by intros ?%not_elem_of_empty].
  destruct (is_empty name); [by intros ?%not_elem_of_empty|].
  destruct (zip_extract name dir zip d) as [[] d1];
    [|by intros ?%not_elem_of_empty].
  destruct (open_text (path_join dir name) d1) as [[lines err]|];
    [|by intros ?%not_elem_of_empty].
  simpl. intros [?%not_elem_of_empty|(line & _ & Hl)]%read_lines_elem;
    [done|]. by exists line.
Qed.

(** X6.  Every dependency name the extractor returns is a token: not
    empty and made of letters, digits, dots, underscores and hyphens only;
    version specifiers, extras and markers never get into the set. *)
Theorem extracted_names_are_tokens (whl_path : string) (d : Disk)
  (deps : gset string) (n : string) :
  (extract_dependencies_from_whl whl_path d).1 = Returned deps →
  n ∈ deps → is_token n.
Proof.
  intros Hex Hn.
  assert (scratch_free whl_path d) as Hfree.
  { intros c Hc. by rewrite (extract_scratch_occupied whl_path d c Hc) in Hex. }
  rewrite (extract_scratch_free whl_path d Hfree) in Hex.
  injection Hex as <-. rewrite try_block_deps in Hn.
  destruct (makedirs (scratch whl_path) d) as [d1|];
    [|by apply not_elem_of_empty in Hn].
  destruct (open_zip whl_path d) as [zip|];
    [|by apply not_elem_of_empty in Hn].
  apply with_zip_elem in Hn as (line & Hl).
  apply line_dependency_Some in Hl as (rest & _ & Hne & ->).
  split; [done | apply take_name_all].
Qed.

Lemma extracted_names_are_tokens_witness :
  (extract_dependencies_from_whl "a.whl"
     {[ "a.whl" := File (Some sample_wheel) ]}).1 = Returned {[ "foo" ]}
  ∧ "foo" ∈ ({[ "foo" ]} : gset string)
  ∧ is_token "foo".
Proof.
  assert ((extract_dependencies_from_whl "a.whl"
             {[ "a.whl" := File (Some sample_wheel) ]}).1
          = Returned {[ "foo" ]}) as Hex by (vm_compute; reflexivity).
  assert ("foo" ∈ ({[ "foo" ]} : gset string)) as Hin
    by (apply (bool_decide_unpack _); vm_compute; exact I).
  split; [exact Hex|]. split; [exact Hin|].
  exact (extracted_names_are_tokens "a.whl" _ _ "foo" Hex Hin).
Defined.


(** *** Reading the member back *)

Lemma join_split (p : string) : join_path (split_path p) = p.
Proof.
  induction p as [|c p IH]; [done|]. simpl split_path.
  destruct (Ascii.eqb c "/") eqn:Ec.
  - apply Ascii.eqb_eq in Ec as ->. simpl join_path.
    destruct (split_path p) as [|x xs] eqn:Es; [by destruct p|].
    by rewrite IH.
  - destruct (split_path p) as [|x xs] eqn:Es; [by destruct p|].
    rewrite <- IH. simpl join_path. by destruct xs.
Qed.

Lemma split_path_nonempty (p : string) : split_path p ≠ [].
Proof.
  destruct p as [|c p]; [done|]. simpl.
  destruct (Ascii.eqb c "/"); [done|]. by destruct (split_path p).
Qed.

Lemma split_app (a b : string) :
  split_path (a +:+ "/" +:+ b) = split_path a ++ split_path b.
Proof.
  induction a as [|c a IH]; [done|].
  rewrite append_cons. simpl split_path. rewrite IH.
  destruct (Ascii.eqb c "/"); [done|].
  pose proof (split_path_nonempty a). by destruct (split_path a).
Qed.

Lemma join_app (l1 l2 : list string) :
  l1 ≠ [] → l2 ≠ [] →
  join_path (l1 ++ l2) = join_path l1 +:+ "/" +:+ join_path l2.
Proof.
  intros H1 H2. induction l1 as [|c l1 IH]; [done|].
  destruct l1 as [|c' l1].
  - simpl. by destruct l2.
  - change (join_path ((c :: c' :: l1) ++ l2))
      with (c +:+ "/" +:+ join_path ((c' :: l1) ++ l2)).
    rewrite IH by done.
    change (join_path (c :: c' :: l1))
      with (c +:+ "/" +:+ join_path (c' :: l1)).
    by rewrite !append_assoc.
Qed.

(** A non-empty prefix of a path that a slash follows is one of the
    directories above it. *)
Lemma ancestors_from_elem (before a r : string) :
  is_empty (before +:+ a) = false →
  before +:+ a ∈ ancestors_from before (a +:+ "/" +:+ r).
Proof.
  revert before. induction a as [|c a IH]; intros before He.
  - rewrite append_nil_r in *. rewrite append_nil_l.
    change ("/" +:+ r) with (String "/" r). simpl. rewrite He. simpl. left.
  - rewrite append_cons. simpl. apply elem_of_app. right.
    replace (before +:+ String c a)
      with ((before +:+ String c "") +:+ a) by by rewrite append_assoc.
    apply IH. by rewrite append_assoc.
Qed.

Lemma ancestors_elem (a r : string) :
  is_empty a = false → a ∈ ancestors (a +:+ "/" +:+ r).
Proof. intros He. by apply (ancestors_from_elem "" a r). Qed.

Lemma ancestors_elem_inv (a p : string) :
  a ∈ ancestors p → is_empty a = false ∧ ∃ r, p = a +:+ "/" +:+ r.
Proof.
  unfold ancestors.
  assert (∀ before, a ∈ ancestors_from before p →
            is_empty a = false ∧ ∃ s r, before +:+ p = a +:+ "/" +:+ r
                                        ∧ a = before +:+ s) as H.
  { induction p as [|c p IH]; intros before; simpl.
    - by intros ?%elem_of_nil.
    - intros [Ha|Ha]%elem_of_app.
      + destruct (Ascii.eqb c "/") eqn:Ec; [|by apply elem_of_nil in Ha].
        destruct (is_empty before) eqn:Eb; [by apply elem_of_nil in Ha|].
        apply list_elem_of_singleton in Ha as ->.
        apply Ascii.eqb_eq in Ec as ->. split; [done|].
        exists "", p. by rewrite append_nil_r.
      + apply IH in Ha as (He & s & r & Hp & ->). split; [done|].
        exists (String c s), r. rewrite <- Hp. by rewrite !append_assoc. }
  intros (He & s & r & Hp & _)%H. split; [done|]. by exists r.
Qed.

(** The directories above a path are those above its parent, and its
    parent. *)
Lemma ancestors_dirname (a p : string) :
  a ∈ ancestors p → a ∈ ancestors (dirname p) ++ [dirname p].
Proof.
  intros (He & r & ->)%ancestors_elem_inv. rewrite dirname_app.
  destruct (has_slash r); apply elem_of_app.
  - left. by apply ancestors_elem.
  - right. left.
Qed.

(** What a proper prefix of the components of a path names is empty or
    one of the directories above the path. *)
Lemma prefix_is_ancestor (p : string) (n : nat) :
  (0 < n < length (split_path p))%nat →
  is_empty (join_path (take n (split_path p))) = false →
  join_path (take n (split_path p)) ∈ ancestors p.
Proof.
  intros Hn He.
  rewrite <- (join_split p) at 2.
  rewrite <- (take_drop n (split_path p)) at 2.
  rewrite join_app.
  - by apply ancestors_elem.
  - intros Ht%(f_equal length). rewrite length_take in Ht. simpl in Ht. lia.
  - intros Ht%(f_equal length). rewrite length_drop in Ht. simpl in Ht. lia.
Qed.

(** A walk through directories along components that name entries ends
    where the components lead. *)
Lemma walk_entries (todo stack : list string) (d : Disk) :
  forallb is_entry_name todo = true →
  (∀ n, (n < length todo)%nat →
        names_directory (stack ++ take n todo) d = true) →
  walk todo stack d = Some (stack ++ todo).
Proof.
  revert stack. induction todo as [|c todo IH]; intros stack Hall Hdir.
  - by rewrite (right_id_L [] (++)).
  - simpl in Hall. apply andb_prop in Hall as [Hc Hall]. simpl.
    pose proof (Hdir 0%nat ltac:(simpl; lia)) as H0. simpl in H0.
    rewrite (right_id_L [] (++)) in H0. rewrite H0.
    unfold is_entry_name in Hc. apply negb_true_iff in Hc.
    apply orb_false_elim in Hc as [[-> ->]%orb_false_elim ->].
    simpl. rewrite IH; [by rewrite <- (assoc_L (++))|done|].
    intros n Hn. rewrite <- (assoc_L (++)).
    apply (Hdir (S n)). simpl. lia.
Qed.

(** [open] finds a file whose path is in normal form when the directories
    above it are there. *)
Lemma open_text_normal (p : string) (d : Disk) (content : Content) :
  is_normal p = true →
  (∀ a, a ∈ ancestors p → d !! a = Some Directory) →
  d !! p = Some (File content) →
  open_text p d = Some (as_text content).
Proof.
  intros Hn Hdirs Hp. unfold open_text, is_normal in *.
  apply andb_prop in Hn as [Hne Hn].
  pose proof (prefix_is_ancestor p) as Hpre.
  pose proof (join_split p) as Hjoin.
  destruct (split_path p) as [|c rest] eqn:Es; [done|].
  apply andb_prop in Hn as [Hc Hrest].
  assert (∀ n, (n < length rest)%nat →
            names_directory ([c] ++ take n rest) d = true) as Hup.
  { intros n Hlt. destruct n as [|n].
    - rewrite take_0. unfold names_directory. simpl.
      destruct (is_empty c) eqn:Ec; [done|]. simpl in Hc.
      assert (isdir c d = true) as ->; [|apply orb_true_r].
      unfold isdir. rewrite (Hdirs c); [done|].
      apply (Hpre 1%nat); [simpl; lia | done].
    - unfold names_directory. apply orb_true_intro. right.
      unfold isdir. rewrite (Hdirs (join_path ([c] ++ take (S n) rest)));
        [done|].
      apply (Hpre (S (S n))); [simpl; lia|].
      change (take (S (S n)) (c :: rest)) with (c :: take (S n) rest).
      destruct rest as [|c' rest]; [simpl in Hlt; lia|].
      simpl in Hrest. apply andb_prop in Hrest as [Hc' _].
      change (take (S n) (c' :: rest)) with (c' :: take n rest).
      change (join_path (c :: c' :: take n rest))
        with (c +:+ "/" +:+ join_path (c' :: take n rest)).
      by destruct c. }
  assert (startswith "/" p = is_empty c) as ->.
  { destruct c as [|x c].
    - destruct rest; [by subst p|]. rewrite <- Hjoin.
      simpl join_path. by rewrite append_nil_l.
    - rewrite <- Hjoin, join_path_head by done. simpl.
      apply orb_prop in Hc as [?|Hc]; [done|].
      eapply split_path_components. rewrite Es. left. }
  destruct (is_empty c) eqn:Ec.
  - destruct c; [|done]. simpl.
    rewrite (walk_entries rest [""] d Hrest Hup).
    change ([""] ++ rest) with ("" :: rest). by rewrite Hjoin, Hp.
  - simpl in Hc.
    rewrite (walk_entries (c :: rest) [] d).
    + change ([] ++ c :: rest) with (c :: rest). by rewrite Hjoin, Hp.
    + simpl. by rewrite Hc, Hrest.
    + intros [|n] Hlt; [done|]. simpl. apply (Hup n). simpl in Hlt. lia.
Qed.

Lemma filter_all (f : string → bool) (l : list string) :
  forallb f l = true → List.filter f l = l.
Proof.
  induction l as [|x l IH]; [done|]. simpl.
  intros [-> Hl]%andb_prop. by rewrite IH.
Qed.

Lemma dirname_shorter (p : string) :
  is_empty p = false → (String.length (dirname p) < String.length p)%nat.
Proof.
  induction p as [|c p IH]; [done|]. intros _. simpl.
  destruct (has_slash p) eqn:Hs; simpl; [|lia].
  destruct p; [done|]. specialize (IH eq_refl). lia.
Qed.

Lemma is_normal_join (dir name : string) :
  is_normal dir = true →
  forallb is_entry_name (split_path name) = true →
  is_normal (dir +:+ "/" +:+ name) = true.
Proof.
  unfold is_normal. intros [Hne Hd]%andb_prop Hn. rewrite split_app.
  apply andb_true_intro. split; [by destruct dir|].
  destruct (split_path dir) as [|c rest]; [done|].
  apply andb_prop in Hd as [Hc Hrest]. simpl.
  by rewrite Hc, forallb_app, Hrest, Hn.
Qed.

Lemma split_path_atom (s : string) :
  has_slash s = false → split_path s = [s].
Proof.
  induction s as [|c s IH]; [done|]. simpl.
  intros [-> Hs]%orb_false_elim. by rewrite IH.
Qed.

(** A suffix without a slash extends the last component. *)
Lemma split_path_suffix (p s : string) :
  has_slash s = false →
  split_path (p +:+ s)
  = removelast (split_path p) ++ [List.last (split_path p) "" +:+ s].
Proof.
  intros Hs. induction p as [|c p IH].
  - rewrite append_nil_l. by apply split_path_atom.
  - rewrite append_cons. simpl split_path. rewrite IH.
    pose proof (split_path_nonempty p) as Hne.
    destruct (split_path p) as [|x [|y ys]]; [done| |];
      by destruct (Ascii.eqb c "/").
Qed.

Lemma scratch_component (c : string) :
  is_entry_name (c +:+ "_extracted_temp") = true.
Proof.
  destruct c as [|x [|y [|z c]]]; try done.
  - unfold is_entry_name. rewrite append_cons. simpl.
    by destruct (Ascii.eqb x ".").
  - unfold is_entry_name. rewrite !append_cons. simpl.
    destruct (Ascii.eqb x "."); [|done]. by destruct (Ascii.eqb y ".").
  - unfold is_entry_name. rewrite !append_cons. simpl.
    destruct (Ascii.eqb x "."); [|done]. by destruct (Ascii.eqb y ".").
Qed.

Lemma forallb_removelast (f : string → bool) (l : list string) :
  forallb f l = true → forallb f (removelast l) = true.
Proof.
  induction l as [|x l IH]; [done|]. simpl.
  intros [Hx Hl]%andb_prop. destruct l; [done|].
  change (forallb f (x :: removelast (s :: l)) = true). simpl.
  rewrite Hx. by apply IH.
Qed.

(** The scratch path of a wheel path in normal form is in normal form. *)
Lemma scratch_normal (p : string) :
  is_normal p = true → is_normal (scratch p) = true.
Proof.
  unfold is_normal. intros [_ Hp]%andb_prop.
  rewrite scratch_nonempty. unfold scratch.
  rewrite split_path_suffix by done.
  destruct (split_path p) as [|c rest]; [done|].
  apply andb_prop in Hp as [Hc Hrest].
  destruct rest as [|c' rest].
  - simpl. by rewrite scratch_component, orb_true_r.
  - change (removelast (c :: c' :: rest)) with (c :: removelast (c' :: rest)).
    change ((c :: removelast (c' :: rest)) ++ ?l)
      with (c :: (removelast (c' :: rest) ++ l)).
    cbv beta iota. rewrite Hc, forallb_app.
    rewrite (forallb_removelast _ _ Hrest). simpl forallb at 1.
    by rewrite scratch_component.
Qed.

(** On a scratch directory that holds nothing, [zip_ref.extract] writes
    a readable member whose name is in normal form under that name, with
    the directories above it. *)
Lemma zip_extract_writes (name dir : string) (zip : Archive) (d : Disk)
  (lines : list string) (err : bool) :
  is_empty dir = false → endswith "/" dir = false →
  (∀ a, a ∈ ancestors dir ++ [dir] → d !! a = Some Directory) →
  (∀ k, startswith (dir +:+ "/") k = true → d !! k = None) →
  is_empty name = false →
  forallb is_entry_name (split_path name) = true →
  getinfo name zip = Some (Readable lines err) →
  ∃ d',
    zip_extract name dir zip d = (Normal, d')
    ∧ path_join dir name = dir +:+ "/" +:+ name
    ∧ d' !! (dir +:+ "/" +:+ name) = Some (File (text_file lines err))
    ∧ ∀ a, a ∈ ancestors (dir +:+ "/" +:+ name) →
           d' !! a = Some Directory.
Proof.
  intros He Hs Hdirs Hbelow Hne Hentries Hg.
  assert (join_path (List.filter is_entry_name (split_path name)) = name)
    as Harc by by rewrite filter_all, join_split.
  pose proof (path_join_below dir name He Hs) as Hpj. simpl in Hpj.
  rewrite Harc in Hpj.
  unfold zip_extract. rewrite Hg, Harc, Hne, Hpj.
  set (targetpath := dir +:+ "/" +:+ name).
  assert (d !! targetpath = None) as Htarget
    by apply Hbelow, startswith_below.
  assert (d !! dir = Some Directory) as Hdir.
  { apply Hdirs, elem_of_app. right. left. }
  assert (∀ a, a ∈ ancestors targetpath →
            a ∈ ancestors (dirname targetpath) ++ [dirname targetpath])
    as Hanc by (intros a; apply ancestors_dirname).
  assert (String.length (dirname targetpath) < String.length targetpath)%nat
    as Hshort by (apply dirname_shorter; by destruct dir).
  assert (dirname targetpath = dir
          ∨ startswith (dir +:+ "/") (dirname targetpath) = true) as Hdn.
  { unfold targetpath. rewrite dirname_app.
    destruct (has_slash name); [right; apply startswith_below | by left]. }
  set (upperdirs := dirname targetpath) in *.
  assert (∀ d1, d1 !! upperdirs = Some Directory →
            d1 !! targetpath = None →
            (∀ a, a ∈ ancestors upperdirs → d1 !! a = Some Directory) →
            ∃ d',
              (if (is_empty upperdirs || isdir upperdirs d1)
                  && negb (isdir targetpath d1)
               then (Normal, <[targetpath:=File (text_file lines err)]> d1)
               else (Exception, d1)) = (Normal, d')
              ∧ targetpath = targetpath
              ∧ d' !! targetpath = Some (File (text_file lines err))
              ∧ ∀ a, a ∈ ancestors targetpath → d' !! a = Some Directory)
    as Hwrite.
  { intros d1 Hup1 Htarget1 Hanc1. unfold isdir.
    rewrite Hup1, Htarget1, orb_true_r. simpl.
    eexists. split; [done|]. split; [done|].
    split; [apply lookup_insert_eq|].
    intros a Ha.
    assert (d1 !! a = Some Directory) as Ha1.
    { apply Hanc in Ha as [Ha|Ha%list_elem_of_singleton]%elem_of_app;
        [by apply Hanc1 | by subst a]. }
    rewrite lookup_insert_ne; [done|]. intros <-. congruence. }
  destruct Hdn as [Hdn|Hdn].
  - rewrite Hdn in *. unfold path_exists. rewrite Hdir, andb_false_r.
    apply Hwrite; [done | done |].
    intros a Ha. apply Hdirs, elem_of_app. by left.
  - assert (d !! upperdirs = None) as Hup by by apply Hbelow.
    assert (is_empty upperdirs = false) as Hupne.
    { apply startswith_app in Hdn as [r ->]. by destruct dir. }
    unfold path_exists. rewrite Hup, Hupne. simpl.
    destruct (makedirs upperdirs d) as [d1|] eqn:Hmk.
    2: { unfold makedirs in Hmk. rewrite Hupne in Hmk.
         apply mkdirs_None in Hmk as (a & c & Hin & Hc). exfalso.
         apply elem_of_app in Hin as [Hin|Hin%list_elem_of_singleton].
         - apply startswith_app in Hdn as [r Hr].
           rewrite Hr, append_assoc in Hin.
           apply ancestors_below in Hin as [Hin|Hin].
           + rewrite (Hdirs a Hin) in Hc. done.
           + rewrite (Hbelow a Hin) in Hc. done.
         - subst a. congruence. }
    pose proof (makedirs_Some _ _ _ Hmk) as [Hk _].
    destruct (Hwrite d1) as (d' & Hif & Hrest).
    + by eapply makedirs_made.
    + rewrite Hk, bool_decide_false; [done|].
      intros [Hin|Hin%list_elem_of_singleton]%elem_of_app.
      * apply ancestor_shorter in Hin. simpl in Hin. lia.
      * rewrite <- Hin in Hshort. lia.
    + intros a Ha. rewrite Hk, bool_decide_true; [done|].
      apply elem_of_app. by left.
    + exists d'. split; [|done]. by rewrite Hupne in Hif.
Qed.

(** X7.  For a wheel that can be opened, with paths in normal form and
    nothing in the way (no regular file above the scratch directory,
    nothing at it or below it), a name is returned exactly when one of the
    lines read from the first [.dist-info/METADATA] entry starts with
    [Requires-Dist:] and carries, after optional white space, that name as
    its leading token.  Order and repetition of the lines do not matter,
    and lines read before a decoding failure count. *)
Theorem extract_reads_requires_dist (whl_path : string) (d : Disk)
  (zip : Archive) (name : string) (lines : list string) (err : bool) :
  is_normal whl_path = true →
  (∀ a c, a ∈ ancestors (scratch whl_path) → d !! a ≠ Some (File c)) →
  (∀ q, under (scratch whl_path) q = true → d !! q = None) →
  open_zip whl_path d = Some zip →
  find_metadata (namelist zip) = Some name →
  forallb is_entry_name (split_path name) = true →
  getinfo name zip = Some (Readable lines err) →
  ∃ deps,
    (extract_dependencies_from_whl whl_path d).1 = Returned deps
    ∧ ∀ n, n ∈ deps ↔
           ∃ rest, requires_dist +:+ rest ∈ lines
                   ∧ is_empty (take_name (lstrip rest)) = false
                   ∧ n = take_name (lstrip rest).
Proof.
  intros Hnormal%scratch_normal Habove Hclean Hz Hf Hentries Hg.
  assert (scratch_free whl_path d) as Hfree.
  { intros c Hc. by rewrite (Hclean _ (under_self _)) in Hc. }
  rewrite (extract_scratch_free whl_path d Hfree), try_block_deps, Hz.
  destruct (makedirs (scratch whl_path) d) as [d1|] eqn:Hmk.
  2: { rewrite makedirs_scratch in Hmk.
       apply mkdirs_None in Hmk as (a & c & Hin & Hc). exfalso.
       apply elem_of_app in Hin as [Hin|Hin%list_elem_of_singleton].
       - by destruct (Habove a c Hin).
       - subst a. by destruct (Hfree c). }
  pose proof (makedirs_Some _ _ _ Hmk) as [Hk _].
  destruct (zip_extract_writes name (scratch whl_path) zip d1 lines err)
    as (d2 & Hx & Hpj & Hfile & Hdirs); try done.
  { apply scratch_nonempty. }
  { apply scratch_no_trailing_slash. }
  { intros a Ha. by rewrite Hk, bool_decide_true. }
  { intros k Hb. rewrite Hk, bool_decide_false.
    - by apply Hclean, under_below.
    - intros [Hin|Hin%list_elem_of_singleton]%elem_of_app.
      + apply ancestor_not_under in Hin.
        by rewrite (under_below _ _ Hb) in Hin.
      + subst k. by rewrite not_below_self in Hb. }
  { by eapply find_metadata_nonempty. }
  unfold with_zip.
  rewrite Hf, (find_metadata_nonempty _ _ Hf), Hx, Hpj.
  rewrite (open_text_normal _ d2 (text_file lines err));
    [|by apply is_normal_join|done|done].
  simpl. eexists. split; [done|]. intros n.
  rewrite read_lines_elem. split.
  - intros [?%not_elem_of_empty|(line & Hin & Hl)]; [done|].
    apply line_dependency_Some in Hl as (rest & -> & ? & ?).
    by exists rest.
  - intros (rest & Hin & Hne & ->). right.
    exists (requires_dist +:+ rest). split; [done|].
    apply line_dependency_Some. by exists rest.
Qed.

Lemma extract_reads_requires_dist_witness :
  ∃ deps,
    (extract_dependencies_from_whl "a.whl"
       {[ "a.whl" := File (Some sample_wheel) ]}).1 = Returned deps
    ∧ ∀ n, n ∈ deps ↔
           ∃ rest, requires_dist +:+ rest
                   ∈ ["Name: a" +:+ newline;
                      "Requires-Dist: foo (>=1.0,<2)" +:+ newline]
                   ∧ is_empty (take_name (lstrip rest)) = false
                   ∧ n = take_name (lstrip rest).
Proof.
  refine (extract_reads_requires_dist "a.whl"
            {[ "a.whl" := File (Some sample_wheel) ]} sample_wheel
            "a-1.0.dist-info/METADATA" _ false _ _ _ _ _ _ _).
  - vm_compute. reflexivity.
  - intros a c Ha. change (ancestors (scratch "a.whl")) with (@nil string) in Ha.
    by apply elem_of_nil in Ha.
  - intros q Hq. apply lookup_singleton_ne. intros <-.
    vm_compute in Hq. discriminate.
  - vm_compute. reflexivity.
  - vm_compute. reflexivity.
  - vm_compute. reflexivity.
  - vm_compute. reflexivity.
Defined.



End WheelExtras.

(** ** The installation loop *)

Module InstallerExtras.
Import Text Wheel PipErrors Installer Spec LogSpec.
Import TextFacts WheelFacts InstallerFacts Scenarios MoreScenarios.

Lemma fresh_nil : fresh [].
Proof. intros pre post n r E. by destruct pre. Qed.

Lemma fresh_snoc_pip (l : list Event) (r : PipResult) :
  fresh l → fresh (l ++ [EvPip r]).
Proof.
  intros Hl pre post m q [(_ & _ & [=])|(post' & _ & ->)]%snoc_split.
  by eapply Hl.
Qed.

Lemma fresh_snoc_add (l : list Event) (n : string) :
  fresh l → fresh (l ++ [EvAdd n]).
Proof.
  intros Hl pre post m q [(_ & _ & [=])|(post' & _ & ->)]%snoc_split.
  by eapply Hl.
Qed.

Lemma fresh_snoc_fetch (l : list Event) (n : string) (r : FetchResult) :
  fresh l → n ∉ adds l → fresh (l ++ [EvFetch n r]).
Proof.
  intros Hl Hn pre post m q [(_ & -> & [= -> _])|(post' & _ & ->)]%snoc_split.
  - done.
  - by eapply Hl.
Qed.

Section Runs.
Context {E : Type} {caps : Capabilities E} {order : SetOrder}.

Implicit Types st : State E.

Lemma iter_NoDup (s : gset string) : NoDup (iter s).
Proof. rewrite (iter_perm s). apply NoDup_elements. Qed.

(** The seed loop fetches only names that are not in the set, adds
    nothing but what it fetched, and makes no install invocation. *)
Lemma fetch_initial_more (dir : string) (deps : list string) st st'
  (oe : option Exn) :
  fetch_initial dir deps st = (st', oe) →
  ok st → fresh (log st) →
  fresh (log st')
  ∧ downloaded_packages st ⊆ downloaded_packages st'
  ∧ (∀ r, EvPip r ∈ log st' → EvPip r ∈ log st)
  ∧ (∀ e, oe = Some e → raised_last e (log st')).
Proof.
  revert st. induction deps as [|dep rest IH]; intros st; simpl.
  - by intros [= <- <-].
  - case_decide as Hin; [apply IH|]. rewrite call_fetch_eq.
    destruct (fetch_func dep dir (world st)) as [[p|e] w]; simpl.
    + intros F Hok Hf.
      assert (fresh (log st ++ [EvFetch dep (FetchReturns p)])) as Hf1.
      { apply fresh_snoc_fetch; [done|]. destruct Hok as [<- _]. done. }
      destruct (truthy p) eqn:Hp.
      * apply IH in F as (? & Hsub & Hpip & ?).
        -- split_and!; [done | | | done].
           ++ intros n Hn. apply Hsub. simpl. apply elem_of_union. by left.
           ++ intros r ?%Hpip. simpl in *.
              by eapply pip_snoc_fetch, pip_snoc_add.
        -- by apply ok_add.
        -- simpl. by apply fresh_snoc_add.
      * apply IH in F as (? & Hsub & Hpip & ?).
        -- split_and!; [done | done | | done].
           intros r ?%Hpip. simpl in *. by eapply pip_snoc_fetch.
        -- by apply ok_fetch.
        -- done.
    + intros [= <- <-] Hok Hf. simpl. split_and!; [|done| |].
      * apply fresh_snoc_fetch; [done|]. destruct Hok as [<- _]. done.
      * intros r. apply pip_snoc_fetch.
      * intros ? [= <-]. right. exists dep. apply last_snoc.
Qed.

(** The download loop of an attempt, run on distinct names that are not
    in the set: it fetches no downloaded name, the set grows by as many
    names as the counter counts, and no install invocation is made. *)
Lemma fetch_missing_more (dir : string) (deps : list string) (c : Z) st
  st' (c' : Z) (oe : option Exn) :
  fetch_missing dir deps c st = (st', c', oe) →
  NoDup deps → (∀ n, n ∈ deps → n ∉ downloaded_packages st) →
  ok st → fresh (log st) →
  fresh (log st')
  ∧ Z.of_nat (size (downloaded_packages st'))
    = Z.of_nat (size (downloaded_packages st)) + (c' - c)
  ∧ c ≤ c'
  ∧ (∀ r, EvPip r ∈ log st' → EvPip r ∈ log st)
  ∧ (∀ e, oe = Some e → raised_last e (log st')).
Proof.
  revert c st. induction deps as [|dep rest IH]; intros c st; simpl.
  - intros [= <- <- <-] _ _ _ Hf. split_and!; [done | lia | lia | done | done].
  - rewrite call_fetch_eq.
    destruct (fetch_func dep dir (world st)) as [[p|e] w]; simpl.
    + intros F [Hdep Hnd]%NoDup_cons Hout Hok Hf.
      assert (dep ∉ downloaded_packages st) as Hd
        by (apply Hout; left).
      assert (fresh (log st ++ [EvFetch dep (FetchReturns p)])) as Hf1.
      { apply fresh_snoc_fetch; [done|]. destruct Hok as [<- _]. done. }
      destruct (truthy p) eqn:Hp.
      * apply IH in F as (? & Hsz & ? & Hpip & ?); try done.
        -- split_and!; [done | | lia | | done].
           ++ rewrite Hsz. simpl. rewrite size_union, size_singleton.
              ** lia.
              ** intros x Hx ->%elem_of_singleton. done.
           ++ intros r ?%Hpip. simpl in *.
              by eapply pip_snoc_fetch, pip_snoc_add.
        -- intros n Hn. simpl. rewrite elem_of_union, elem_of_singleton.
           intros [?| ->]; [|done]. apply (Hout n); [by right | done].
        -- by apply ok_add.
        -- simpl. by apply fresh_snoc_add.
      * apply IH in F as (? & Hsz & ? & Hpip & ?); try done.
        -- split_and!; [done | done | done | | done].
           intros r ?%Hpip. simpl in *. by eapply pip_snoc_fetch.
        -- intros n Hn. simpl. apply Hout. by right.
        -- by apply ok_fetch.
    + intros [= <- <- <-] _ Hout Hok Hf. simpl.
      split_and!; [| lia | lia | |].
      * apply fresh_snoc_fetch; [done|]. destruct Hok as [<- _].
        apply Hout. left.
      * intros r. apply pip_snoc_fetch.
      * intros ? [= <-]. right. exists dep. apply last_snoc.
Qed.

(** What the seed phase establishes beyond [seed_inv]. *)
Lemma seed_more (main dir : string) (w : World E) :
  match seed main dir w with
  | inl run =>
      fresh (log (final run)) ∧ (∀ r, EvPip r ∉ log (final run))
      ∧ (exit run = MainPackageUnavailable ∨ exit run = Propagated)
      ∧ (∀ status, result run = Interrupted status →
                   raised_last (BaseException status) (log (final run)))
  | inr st =>
      fresh (log st) ∧ (1 ≤ size (downloaded_packages st))%nat
      ∧ ∀ r, EvPip r ∉ log st
  end.
Proof.
  assert (ok (initial_state w)) as Hok0 by (split; [done | apply sound_nil]).
  assert (∀ r, fresh (log (initial_state w) ++ [EvFetch main r])) as Hf1.
  { intros r. apply fresh_snoc_fetch; [apply fresh_nil|].
    apply not_elem_of_empty. }
  assert (∀ q r, EvPip r ∉ [EvFetch main q]) as Hp1.
  { by intros q r [=]%list_elem_of_singleton. }
  assert (∀ e status, escape e = Interrupted status →
            e = BaseException status) as Hesc.
  { intros e status. by destruct e; intros [= <-]. }
  unfold seed. rewrite call_fetch_eq.
  destruct (fetch_func main dir (world (initial_state w))) as [[p|e] w1];
    simpl.
  2: { split_and!; [apply Hf1 | apply Hp1 | by right |].
       intros status ->%Hesc. right. by exists main. }
  destruct p as [path|];
    [|split_and!; [apply Hf1 | apply Hp1 | by left | done]].
  destruct (is_empty path) eqn:Hp;
    [split_and!; [apply Hf1 | apply Hp1 | by left | done]|].
  pose proof (ok_add main (Some path) w1 _ Hok0) as Hok2.
  simpl in Hok2. rewrite Hp in Hok2. specialize (Hok2 eq_refl).
  assert (∀ r, EvPip r ∉ [EvFetch main (FetchReturns (Some path));
                           EvAdd main]) as Hp2.
  { intros r [[=]|[[=]|[]%elem_of_nil]%elem_of_cons]%elem_of_cons. }
  assert (fresh [EvFetch main (FetchReturns (Some path)); EvAdd main])
    as Hf2 by apply (fresh_snoc_add [_]), Hf1.
  pose proof (extract_never_interrupted path (disk w1)) as Hnever.
  destruct (extract_dependencies_from_whl path (disk w1)) as [[deps| |s] d];
    [|split_and!; [done | done | by right | done]
     |by destruct (Hnever s)].
  destruct (fetch_initial dir (iter deps) _) as [st4 oe] eqn:F.
  apply fetch_initial_more in F as (Hf4 & Hsub & Hpip & Hlast);
    [|done|done].
  assert (∀ r, EvPip r ∉ log st4) as Hp4.
  { intros r Hr%Hpip. by apply (Hp2 r). }
  destruct oe as [e|].
  { split_and!; [done | done | by right|].
    simpl. intros status ->%Hesc. by apply Hlast. }
  split_and!; [done | | done].
  assert (main ∈ downloaded_packages st4) as Hm.
  { apply Hsub. simpl. apply elem_of_union. right.
    by apply elem_of_singleton. }
  assert (size (downloaded_packages st4) ≠ 0)%nat; [|lia].
  apply size_non_empty_iff. intros He. rewrite He in Hm.
  by apply not_elem_of_empty in Hm.
Qed.

Lemma settled_leave (max_retries : Z) (x : Exit) st :
  fresh (log st) →
  (installs (log st) ≤ size (downloaded_packages st))%nat →
  (x = MaxAttemptsExceeded → max_retries ≤ attempt st) →
  Z.of_nat (installs (log st)) = attempt st →
  (∀ e, EvPip (PipRaises e) ∉ log st) →
  settled max_retries (leave x st).
Proof.
  intros ? ? ? ? Hp. split_and!; try done.
  intros e He. by destruct (Hp e).
Qed.

(** A call of an attempt raised: the flag is still false there. *)
Lemma settled_except (max_retries : Z) (e : Exn) st :
  fresh (log st) →
  (installs (log st) ≤ size (downloaded_packages st))%nat →
  Z.of_nat (installs (log st)) = attempt st →
  installed_successfully st = false →
  (∀ e', EvPip (PipRaises e') ∈ log st → e' = e) →
  raised_last e (log st) →
  settled max_retries (except e st).
Proof.
  intros ? ? ? Hi Hp Hlast.
  assert (final (except e st) = st) as Hfin by by destruct e.
  assert (exit (except e st) = handler e) as Hexit by by destruct e.
  assert (result (except e st) = attempt_outcome e) as Hres.
  { destruct e; simpl; by rewrite ?Hi. }
  unfold settled. rewrite Hfin, Hexit, Hres. split_and!; try done.
  - by destruct e.
  - by destruct e.
  - by intros e' ->%Hp.
  - intros status Hs. by destruct e; simplify_eq/=.
Qed.

(** The loop keeps all of this. *)
Lemma retry_loop_settled (main dir : string) (max_retries : Z) (fuel : nat)
  st (run : Run E) :
  retry_loop main dir max_retries fuel st = Some run →
  ok st → fresh (log st) →
  Z.of_nat (installs (log st)) = attempt st →
  (∀ e, EvPip (PipRaises e) ∉ log st) →
  (installs (log st) + (if installed_successfully st then 0 else 1)
   ≤ size (downloaded_packages st))%nat →
  settled max_retries run.
Proof.
  revert st. induction fuel as [|fuel IH]; intros st Hrun Hok Hf Ha Hp Hs.
  all: simpl in Hrun;
    destruct (negb (installed_successfully st)
              && (attempt st <? max_retries)) eqn:Hc.
  1: done.
  1,3: injection Hrun as <-; apply settled_leave; try done;
    [ destruct (installed_successfully st); lia
    | intros Hx; destruct (installed_successfully st); [done|];
      simpl in Hc; apply Z.ltb_ge in Hc; lia ].
  apply andb_prop in Hc as [Hi%negb_true_iff Hlt%Z.ltb_lt].
  rewrite Hi in Hs.
  destruct (subprocess_run (command main dir) (world st)) as [r w].
  set (st2 := record (EvPip r) w (next_attempt st)) in *.
  assert (ok st2) as Hok2 by by apply ok_pip.
  assert (fresh (log st2)) as Hf2 by by apply fresh_snoc_pip.
  assert (installs (log st2) = S (installs (log st))) as Hn2.
  { unfold st2. simpl. count. }
  assert (Z.of_nat (installs (log st2)) = attempt st2) as Ha2.
  { rewrite Hn2. unfold st2. simpl. lia. }
  assert (size (downloaded_packages st2) = size (downloaded_packages st))
    as Hs2 by done.
  assert (∀ e, EvPip (PipRaises e) ∈ log st2 → r = PipRaises e) as Hp2.
  { intros e [Hin|Hin%list_elem_of_singleton]%elem_of_app.
    - by destruct (Hp e).
    - by injection Hin as <-. }
  destruct r as [rc out err|e].
  2: { injection Hrun as <-. apply settled_except; try done; [lia | |].
       - by intros e' [= ->]%Hp2.
       - left. apply last_snoc. }
  assert (∀ x, x ≠ MaxAttemptsExceeded →
            settled max_retries (leave x st2)) as Hleave.
  { intros x ?. apply settled_leave; try done; [lia|].
    by intros e ?%Hp2. }
  destruct (rc =? 0).
  { apply IH in Hrun; try done.
    - intros e He. change (log (set_installed st2)) with (log st2) in He.
      by apply Hp2 in He.
    - change (installs (log st2) + 0 ≤ size (downloaded_packages st2))%nat.
      lia. }
  case_decide; [injection Hrun as <-; by apply Hleave|].
  case_decide as Hnew; [injection Hrun as <-; by apply Hleave|].
  destruct (fetch_missing dir _ 0 st2) as [[st3 c] oe] eqn:F.
  pose proof (fetch_missing_inv _ _ _ _ _ _ _ F) as (Ha3 & Hi3 & Hn3 & Hok3).
  apply fetch_missing_more in F as (Hf3 & Hsz & Hc0 & Hpip & Hlast);
    [|apply iter_NoDup| |done|done].
  2: { intros n Hn%elem_of_iter. by apply elem_of_difference in Hn as [_ ?]. }
  assert (∀ e, EvPip (PipRaises e) ∉ log st3) as Hp3.
  { intros e He%Hpip. by apply Hp2 in He. }
  destruct oe as [e|].
  { injection Hrun as <-. apply settled_except; try done.
    - rewrite Hn3. lia.
    - by rewrite Hn3, Ha3.
    - by rewrite Hi3.
    - intros e' He'. by destruct (Hp3 e').
    - by apply Hlast. }
  assert (∀ x, x ≠ MaxAttemptsExceeded →
            settled max_retries (leave x st3)) as Hleave3.
  { intros x ?. apply settled_leave; try done.
    - rewrite Hn3. lia.
    - by rewrite Hn3, Ha3. }
  destruct ((c =? 0) && (0 <? Z.of_nat (size _))) eqn:Hbreak;
    [injection Hrun as <-; by apply Hleave3|].
  apply IH in Hrun; try done.
  - by apply Hok3.
  - by rewrite Hn3, Ha3.
  - rewrite Hi3.
    change (installed_successfully st2) with (installed_successfully st).
    rewrite Hi, Hn3.
    assert (c ≠ 0); [|lia].
    intros ->. simpl in Hbreak. apply Z.ltb_ge in Hbreak.
    assert (size (parse_pip_error_for_missing_deps err
                  ∖ downloaded_packages st) = 0)%nat as Hz by lia.
    by apply size_empty_iff, leibniz_equiv in Hz.
Qed.

(** Every run is settled, and an exception of class [Exception] leaves it
    only before the first attempt. *)
Lemma run_settled (main dir : string) (max_retries : Z) (w : World E) :
  ∃ run, install_packages_locally main dir max_retries w = Some run
    ∧ fresh (log (final run))
    ∧ (installs (log (final run))
       ≤ size (downloaded_packages (final run)))%nat
    ∧ (installs (log (final run)) ≤ Z.to_nat max_retries)%nat
    ∧ (result run = Raised → installs (log (final run)) = 0%nat)
    ∧ (exit run = MaxAttemptsExceeded →
       installs (log (final run)) = Z.to_nat max_retries)
    ∧ (∀ e, EvPip (PipRaises e) ∈ log (final run) →
            exit run = handler e ∧ result run = attempt_outcome e)
    ∧ (∀ status, result run = Interrupted status →
                 raised_last (BaseException status) (log (final run)))
    ∧ coherent run
    ∧ (exit run = Installed → succeeded (log (final run))).
Proof.
  destruct (run_spec main dir max_retries w)
    as (run & Hrun & _ & Hb & Hco & Hsu).
  exists run. split; [done|].
  unfold install_packages_locally, run_with_fuel in Hrun.
  pose proof (seed_inv main dir w) as Hs.
  pose proof (seed_more main dir w) as Hm.
  destruct (seed main dir w) as [run0|st].
  - injection Hrun as <-. destruct Hs as (_ & Hn & _ & Hx).
    destruct Hm as (Hf & Hp & Hx' & Hint). rewrite Hn.
    split_and!; try done; try lia.
    + intros Hm. destruct Hx'; congruence.
    + intros e He. by destruct (Hp _ He).
  - destruct Hs as (Hok & Hn & Ha & Hi). destruct Hm as (Hf & Hsz & Hp).
    apply retry_loop_settled in Hrun
      as (Hf' & Hsz' & Hx & Hmax & Ha' & Hp' & Hint); try done.
    + split_and!; try done.
      intros Hm%Hmax. lia.
    + rewrite Hn, Ha. done.
    + rewrite Hi, Hn. simpl. lia.
Qed.

(** X9.  A package is never downloaded twice: no fetch is made for a name
    that is in [downloaded_packages] at that moment, in the seed phase or
    in any attempt, even when pip reports the name again. *)
Theorem downloaded_names_are_not_fetched_again
  (main_package_name download_dir : string) (max_retries : Z)
  (w : World E) :
  ∃ run,
    install_packages_locally main_package_name download_dir max_retries w
    = Some run
    ∧ downloaded_packages (final run) = adds (log (final run))
    ∧ ∀ pre post n r,
        log (final run) = pre ++ EvFetch n r :: post → n ∉ adds pre.
Proof.
  destruct (run_settled main_package_name download_dir max_retries w)
    as (run & Hrun & Hf & _).
  destruct (run_spec main_package_name download_dir max_retries w)
    as (run' & Hrun' & [Hd _] & _).
  rewrite Hrun in Hrun'. injection Hrun' as <-.
  exists run. by split_and!.
Qed.

(** X10.  The loop makes progress or stops: at the end of every run the
    number of install invocations is at most the number of downloaded
    packages, because an attempt is followed by another one only after at
    least one package that was not there before has been downloaded. *)
Theorem attempts_bounded_by_downloads
  (main_package_name download_dir : string) (max_retries : Z)
  (w : World E) :
  ∃ run,
    install_packages_locally main_package_name download_dir max_retries w
    = Some run
    ∧ (installs (log (final run))
       ≤ size (downloaded_packages (final run)))%nat.
Proof.
  destruct (run_settled main_package_name download_dir max_retries w)
    as (run & Hrun & _ & Hs & _).
  by exists run.
Qed.

(** X11.  An exception of class [Exception] can leave the function only
    before the first install invocation (from the fetch of the main
    package or of a declared dependency, or from the extractor's
    clean-up): inside an attempt the two handlers catch it, so that an
    install invocation that raises one ends the run with [False].  An
    exception outside that class ([SystemExit], [KeyboardInterrupt]) has
    no handler: whichever call raises it, an install invocation included,
    it leaves the function at once, so that call is the last of the
    run. *)
Theorem exceptions_escape_only_before_first_attempt
  (main_package_name download_dir : string) (max_retries : Z)
  (w : World E) :
  ∃ run,
    install_packages_locally main_package_name download_dir max_retries w
    = Some run
    ∧ (result run = Raised → installs (log (final run)) = 0%nat)
    ∧ (∀ e, EvPip (PipRaises e) ∈ log (final run) →
            result run = attempt_outcome e)
    ∧ (∀ status, result run = Interrupted status →
                 raised_last (BaseException status) (log (final run))).
Proof.
  destruct (run_settled main_package_name download_dir max_retries w)
    as (run & Hrun & _ & _ & _ & Hx & _ & Hp & Hint & _).
  exists run. split_and!; try done. intros e He. by apply Hp.
Qed.

Lemma succeeded_installs (l : list Event) :
  succeeded l → (1 ≤ installs l)%nat.
Proof.
  intros (out & err & Hl). apply last_Some in Hl as [l' ->].
  rewrite installs_app. unfold installs at 2. simpl. lia.
Qed.

Lemma head_snoc {A} (l : list A) (x y : A) :
  head l = Some x → head (l ++ [y]) = Some x.
Proof. by destruct l. Qed.

Lemma fetch_initial_head (dir : string) (deps : list string) st st'
  (oe : option Exn) (x : Event) :
  fetch_initial dir deps st = (st', oe) →
  head (log st) = Some x → head (log st') = Some x.
Proof.
  revert st. induction deps as [|dep rest IH]; intros st; simpl.
  - by intros [= <- _].
  - case_decide; [apply IH|]. rewrite call_fetch_eq.
    destruct (fetch_func dep dir (world st)) as [[p|e] w]; simpl.
    + destruct (truthy p); intros F Hx; apply (IH _ F); simpl;
        by repeat apply head_snoc.
    + intros [= <- _] Hx. simpl. by apply head_snoc.
Qed.

Lemma fetch_missing_head (dir : string) (deps : list string) (c : Z) st
  st' (c' : Z) (oe : option Exn) (x : Event) :
  fetch_missing dir deps c st = (st', c', oe) →
  head (log st) = Some x → head (log st') = Some x.
Proof.
  intros (evs & -> & _)%fetch_missing_adds Hx. by destruct (log st).
Qed.

Lemma retry_loop_head (main dir : string) (max_retries : Z) (fuel : nat)
  st (run : Run E) (x : Event) :
  retry_loop main dir max_retries fuel st = Some run →
  head (log st) = Some x → head (log (final run)) = Some x.
Proof.
  revert st. induction fuel as [|fuel IH]; intros st Hrun Hx.
  all: simpl in Hrun;
    destruct (negb (installed_successfully st)
              && (attempt st <? max_retries)).
  1: done.
  1,3: by injection Hrun as <-.
  destruct (subprocess_run (command main dir) (world st)) as [r w].
  set (st2 := record (EvPip r) w (next_attempt st)) in *.
  assert (head (log st2) = Some x) as Hx2 by by apply head_snoc.
  assert (∀ e st', final (except e st') = st') as Hfin
    by (intros e st'; by destruct e).
  destruct r as [rc out err|e]; [|injection Hrun as <-; by rewrite Hfin].
  destruct (rc =? 0); [by apply (IH _ Hrun)|].
  case_decide; [by injection Hrun as <-|].
  case_decide; [by injection Hrun as <-|].
  destruct (fetch_missing dir _ 0 st2) as [[st3 c] oe] eqn:F.
  pose proof (fetch_missing_head _ _ _ _ _ _ _ _ F Hx2) as Hx3.
  destruct oe as [e|]; [injection Hrun as <-; by rewrite Hfin|].
  destruct ((c =? 0) && _); [by injection Hrun as <-|].
  by apply (IH _ Hrun).
Qed.

(** The first call of every run is the fetch of the main package. *)
Lemma run_head (main dir : string) (max_retries : Z) (w : World E)
  (run : Run E) :
  install_packages_locally main dir max_retries w = Some run →
  ∃ r, head (log (final run)) = Some (EvFetch main r).
Proof.
  unfold install_packages_locally, run_with_fuel.
  assert (match seed main dir w with
          | inl run0 => ∃ r, head (log (final run0)) = Some (EvFetch main r)
          | inr st => ∃ r, head (log st) = Some (EvFetch main r)
          end) as Hseed.
  { unfold seed. rewrite call_fetch_eq.
    destruct (fetch_func main dir (world (initial_state w)))
      as [[p|e] w1]; simpl; [|by eexists].
    destruct p as [path|]; [|by eexists].
    destruct (is_empty path); [by eexists|].
    destruct (extract_dependencies_from_whl path (disk w1))
      as [[deps| |s] d]; [|by eexists|by eexists].
    destruct (fetch_initial dir (iter deps) _) as [st4 oe] eqn:F.
    apply (fetch_initial_head _ _ _ _ _
             (EvFetch main (FetchReturns (Some path)))) in F; [|done].
    destruct oe; by eexists. }
  destruct (seed main dir w) as [run0|st].
  - by intros [= <-].
  - destruct Hseed as [r Hr]. intros Hrun. exists r.
    by eapply retry_loop_head.
Qed.

(** X12.  With [max_retries] zero or negative the loop body never runs:
    the main package is still fetched (it is the first call of the run,
    and the seed phase follows when it is there), but no install
    invocation is made and the function cannot return [True]. *)
Theorem no_attempt_without_retries
  (main_package_name download_dir : string) (max_retries : Z)
  (w : World E) :
  max_retries ≤ 0 →
  ∃ run,
    install_packages_locally main_package_name download_dir max_retries w
    = Some run
    ∧ installs (log (final run)) = 0%nat
    ∧ result run ≠ Returned true
    ∧ ∃ r, head (log (final run)) = Some (EvFetch main_package_name r).
Proof.
  intros Hmax.
  destruct (run_settled main_package_name download_dir max_retries w)
    as (run & Hrun & _ & _ & Hb & _ & _ & _ & _ & Hco & Hsu).
  exists run. split; [done|]. split; [lia|].
  split; [|by eapply run_head].
  intros Hr. unfold coherent in Hco.
  assert (exit run = Installed) as Hx.
  { destruct (exit run); try congruence.
    destruct Hco as [?|[? ?]]; congruence. }
  apply Hsu, succeeded_installs in Hx. lia.
Qed.

(** X13.  When a run ends because the attempts are exhausted, exactly
    [max_retries] install invocations have been made (none for a bound
    below zero) and the value is [False]. *)
Theorem exhausted_after_max_retries_attempts
  (main_package_name download_dir : string) (max_retries : Z)
  (w : World E) :
  ∃ run,
    install_packages_locally main_package_name download_dir max_retries w
    = Some run
    ∧ (exit run = MaxAttemptsExceeded →
       installs (log (final run)) = Z.to_nat max_retries
       ∧ result run = Returned false).
Proof.
  destruct (run_settled main_package_name download_dir max_retries w)
    as (run & Hrun & _ & _ & _ & _ & Hm & _ & _ & Hco & _).
  exists run. split; [done|]. intros Hx. split; [by apply Hm|].
  unfold coherent in Hco. by rewrite Hx in Hco.
Qed.

(** An install invocation that exits with status 0 ends the run at once
    with [True]: nothing is fetched or installed after it and the set of
    downloaded packages stays as it is. *)
Lemma success_step (main dir : string) (max_retries : Z) (fuel : nat) st
  (stdout stderr : string) (w : World E) :
  installed_successfully st = false →
  attempt st < max_retries →
  subprocess_run (command main dir) (world st)
  = (PipExits 0 stdout stderr, w) →
  ∃ run,
    retry_loop main dir max_retries (S fuel) st = Some run
    ∧ exit run = Installed
    ∧ result run = Returned true
    ∧ log (final run) = log st ++ [EvPip (PipExits 0 stdout stderr)]
    ∧ downloaded_packages (final run) = downloaded_packages st.
Proof.
  intros Hi Hlt Hpip. simpl.
  rewrite Hi. apply Z.ltb_lt in Hlt as ->. simpl. rewrite Hpip. simpl.
  eexists. split; [by destruct fuel|]. by split_and!.
Qed.

(** X14.  With an installer that succeeds, a run allowed at least one
    attempt makes exactly one install invocation and returns [True],
    whatever was or was not fetched for the declared dependencies; the
    only other way it can end is before any attempt, when the main package
    is unavailable or an exception leaves the seed phase. *)
Theorem first_success_ends_the_run
  (main_package_name download_dir : string) (max_retries : Z)
  (w : World E) :
  always_installs → 0 < max_retries →
  ∃ run,
    install_packages_locally main_package_name download_dir max_retries w
    = Some run
    ∧ ((result run = Returned true ∧ exit run = Installed
        ∧ installs (log (final run)) = 1%nat)
       ∨ (installs (log (final run)) = 0%nat
          ∧ (exit run = MainPackageUnavailable ∨ exit run = Propagated))).
Proof.
  intros Hpip Hmax. unfold install_packages_locally, run_with_fuel.
  pose proof (seed_inv main_package_name download_dir w) as Hs.
  pose proof (seed_more main_package_name download_dir w) as Hm.
  destruct (seed main_package_name download_dir w) as [run|st].
  - exists run. split; [done|]. right.
    destruct Hs as (_ & Hn & _). by destruct Hm as (_ & _ & Hx & _).
  - destruct Hs as (_ & Hn & Ha & Hi).
    assert (∃ fuel, Z.to_nat max_retries = S fuel) as [fuel ->].
    { exists (Z.to_nat max_retries - 1)%nat. lia. }
    destruct (Hpip (command main_package_name download_dir) (world st))
      as (out & err & w' & Hrun).
    destruct (success_step main_package_name download_dir max_retries
                fuel st out err w' Hi) as (run & -> & Hx & Hr & Hl & _);
      [lia | done |].
    exists run. split; [done|]. left. split_and!; try done.
    rewrite Hl, installs_app, Hn. done.
Qed.

Lemma fetch_missing_none (dir : string) (names : gset string)
  (deps : list string) (c : Z) st :
  never_fetches names → (∀ n, n ∈ deps → n ∈ names) →
  ∃ st', fetch_missing dir deps c st = (st', c, None)
    ∧ downloaded_packages st' = downloaded_packages st
    ∧ installs (log st') = installs (log st)
    ∧ installed_successfully st' = installed_successfully st.
Proof.
  intros Hnever. revert st.
  induction deps as [|dep rest IH]; intros st Hin; simpl.
  - by exists st.
  - rewrite call_fetch_eq.
    destruct (Hnever dep dir (world st)) as (p & w' & -> & Hp);
      [apply Hin; left|].
    simpl. rewrite Hp.
    destruct (IH (record (EvFetch dep (FetchReturns p)) w' st))
      as (st' & -> & Hd & Hn & Hi); [intros n ?; apply Hin; by right|].
    exists st'. split_and!; try done. rewrite Hn. simpl. count.
Qed.

(** X15.  When none of the newly reported packages can be fetched, the
    attempt is the last one: the run ends with [False] through the
    no-progress branch, after one install invocation more and with the
    set of downloaded packages unchanged. *)
Theorem no_download_ends_the_run (main_package_name download_dir : string)
  (max_retries : Z) (fuel : nat) st (returncode : Z)
  (stdout stderr : string) (w : World E) :
  installed_successfully st = false →
  attempt st < max_retries →
  subprocess_run (command main_package_name download_dir) (world st)
  = (PipExits returncode stdout stderr, w) →
  returncode ≠ 0 →
  parse_pip_error_for_missing_deps stderr ∖ downloaded_packages st ≠ ∅ →
  never_fetches
    (parse_pip_error_for_missing_deps stderr ∖ downloaded_packages st) →
  ∃ run,
    retry_loop main_package_name download_dir max_retries (S fuel) st
    = Some run
    ∧ exit run = NoDownloadProgress
    ∧ result run = Returned false
    ∧ downloaded_packages (final run) = downloaded_packages st
    ∧ installs (log (final run)) = S (installs (log st)).
Proof.
  intros Hi Hlt Hpip Hrc Hnew Hnever. simpl.
  rewrite Hi. apply Z.ltb_lt in Hlt as ->. simpl. rewrite Hpip.
  apply Z.eqb_neq in Hrc as ->.
  case_decide as Hm.
  { destruct Hnew. rewrite Hm. apply set_eq. intros n.
    rewrite elem_of_difference. split; [by intros [? _]|].
    by intros ?%not_elem_of_empty. }
  case_decide; [done|].
  destruct (fetch_missing_none download_dir _
              (iter (parse_pip_error_for_missing_deps stderr
                     ∖ downloaded_packages st)) 0
              (record (EvPip (PipExits returncode stdout stderr)) w
                 (next_attempt st)) Hnever)
    as (st' & -> & Hd & Hn & Hi'); [by intros n ?%elem_of_iter|].
  assert ((0 <? Z.of_nat (size (parse_pip_error_for_missing_deps stderr
                                ∖ downloaded_packages st))) = true) as ->.
  { apply Z.ltb_lt.
    assert (size (parse_pip_error_for_missing_deps stderr
                  ∖ downloaded_packages st) ≠ 0)%nat; [|lia].
    apply size_non_empty_iff. intros He. by apply Hnew, leibniz_equiv. }
  simpl. eexists. split; [done|]. simpl. rewrite Hi', Hd, Hn. simpl.
  rewrite Hi. split_and!; try done. count.
Qed.

End Runs.

Lemma no_attempt_without_retries_witness :
  0 ≤ 0
  ∧ ∃ run, run_scripted [] one_missing "pkg" 0 = Some run
      ∧ installs (log (final run)) = 0%nat
      ∧ result run ≠ Returned true
      ∧ ∃ r, head (log (final run)) = Some (EvFetch "pkg" r).
Proof.
  split; [discriminate|].
  exact (no_attempt_without_retries (caps := scripted [] one_missing)
           "pkg" "downloads" 0 empty_world ltac:(discriminate)).
Defined.

Lemma first_success_ends_the_run_witness :
  0 < 5
  ∧ ∃ run,
      install_packages_locally (caps := succeeding) "pkg" "downloads" 5
        empty_world = Some run
      ∧ ((result run = Returned true ∧ exit run = Installed
          ∧ installs (log (final run)) = 1%nat)
         ∨ (installs (log (final run)) = 0%nat
            ∧ (exit run = MainPackageUnavailable
               ∨ exit run = Propagated))).
Proof.
  split; [reflexivity|].
  refine (first_success_ends_the_run (caps := succeeding)
            "pkg" "downloads" 5 empty_world _ eq_refl).
  intros cmd w. eexists _, _, _. reflexivity.
Defined.

Lemma no_download_ends_the_run_witness :
  ∃ run,
    retry_loop (caps := scripted ["ghost"] ghost_missing)
      "pkg" "downloads" 5 1 nothing_new = Some run
    ∧ exit run = NoDownloadProgress
    ∧ result run = Returned false
    ∧ downloaded_packages (final run) = downloaded_packages nothing_new
    ∧ installs (log (final run)) = S (installs (log nothing_new)).
Proof.
  assert (parse_pip_error_for_missing_deps ghost_missing
          ∖ downloaded_packages nothing_new = {[ "ghost" ]}) as Hnew
    by (vm_compute; reflexivity).
  refine (no_download_ends_the_run
            (caps := scripted ["ghost"] ghost_missing)
            "pkg" "downloads" 5 0%nat nothing_new 1 "" ghost_missing
            empty_world eq_refl eq_refl eq_refl _ _ _).
  - discriminate.
  - rewrite Hnew. apply (bool_decide_unpack _). vm_compute. exact I.
  - rewrite Hnew. intros name dir w ->%elem_of_singleton.
    eexists _, _. split; reflexivity.
Defined.

End InstallerExtras.

(** ** The command line *)

Module PipassFacts.
Import Text Wheel PipErrors Installer Pipass Spec LogSpec.
Import TextFacts WheelFacts InstallerFacts WheelExtras Scenarios MoreScenarios.

Section Main.
Context {E : Type} {caps : Capabilities E} {order : SetOrder}.

(** X16.  The exit status of [pipass.py <package>] does not tell whether
    the installation worked: whenever [install_packages_locally] returns,
    with [True] or with [False], [main] returns and the status is 0; it is
    1 only when an exception left the function (and the status of that
    exception when it is outside the class [Exception]). *)
Theorem failed_install_exits_zero (DOWNLOADS_DIR script package : string)
  (more : list string) (w : World E) (d1 : Disk) :
  makedirs DOWNLOADS_DIR (disk w) = Some d1 →
  package ≠ "--clean" →
  ∃ run r,
    install_packages_locally package DOWNLOADS_DIR 5 (with_disk d1 w)
    = Some run
    ∧ main DOWNLOADS_DIR (script :: package :: more) w = Some r
    ∧ calls r = log (final run)
    ∧ (∀ b, result run = Returned b → exit_status (ending r) = 0)
    ∧ (result run = Raised → exit_status (ending r) = 1)
    ∧ (∀ status, result run = Interrupted status →
                 exit_status (ending r) = status).
Proof.
  intros Hmk Hne.
  destruct (run_spec package DOWNLOADS_DIR 5 (with_disk d1 w))
    as (run & Hrun & _).
  unfold main. rewrite Hmk.
  apply String.eqb_neq in Hne as ->. rewrite Hrun.
  eexists _, _. split_and!; try done; simpl.
  - by intros b ->.
  - by intros ->.
  - by intros status ->.
Qed.


End Main.

Lemma failed_install_exits_zero_witness :
  ∃ run r,
    install_packages_locally (caps := scripted [] "boom")
      "pkg" "/pipass/downloads" 5
      (with_disk {[ "/pipass" := Directory;
                    "/pipass/downloads" := Directory ]} empty_world)
    = Some run
    ∧ main_scripted [] "boom" ["pkg"] = Some r
    ∧ calls r = log (final run)
    ∧ (∀ b, result run = Returned b → exit_status (ending r) = 0)
    ∧ (result run = Raised → exit_status (ending r) = 1)
    ∧ (∀ status, result run = Interrupted status →
                 exit_status (ending r) = status).
Proof.
  refine (failed_install_exits_zero (caps := scripted [] "boom")
            "/pipass/downloads" "pipass.py" "pkg" [] empty_world
            {[ "/pipass" := Directory;
               "/pipass/downloads" := Directory ]} _ _).
  - vm_compute. reflexivity.
  - discriminate.
Defined.


End PipassFacts.

